(** * ZenSpace AI: the media player, the session generator, the chat panel,
      the application shell and the service module, embedded from the
      TypeScript sources.

    - [JsString]    : the string methods the components use.
    - [Types]       : src/types (Message, MeditationSession, AppMode, ...).
    - [MediaPlayer] : src/components/MediaPlayer.tsx.
    - [Generator]   : src/components/Generator.tsx.
    - [ChatBot]     : src/components/ChatBot.tsx.
    - [App]         : src/App.tsx.
    - [GeminiService] : src/services/geminiService.ts.

    Numbers that the browser holds as doubles (the audio clock, offsets, the
    progress percentage) are rationals here; strings are sequences of 8-bit
    code units read as Latin-1. *)

From Stdlib Require Import Bool Arith PeanoNat NArith ZArith List String Ascii.
From Stdlib Require Import QArith Qminmax Lia Lqa DecimalString.
Import ListNotations.

Close Scope Q_scope.
Open Scope nat_scope.

(* ------------------------------------------------------------------ *)
(** ** String methods *)

Module JsString.

Local Open Scope string_scope.

(** Code units 0x41..0x5A, and 0xC0..0xDE except the multiplication sign
    0xD7, are the upper-case letters of Latin-1. *)
Definition isUpper (c : ascii) : bool :=
  let n := nat_of_ascii c in
  ((65 <=? n) && (n <=? 90))%nat
  || ((192 <=? n) && (n <=? 222) && negb (n =? 215))%nat.

Definition lowerChar (c : ascii) : ascii :=
  if isUpper c then ascii_of_nat (nat_of_ascii c + 32) else c.

(** [String.prototype.toLowerCase]. *)
Fixpoint toLowerCase (s : string) : string :=
  match s with
  | EmptyString => EmptyString
  | String c t => String (lowerChar c) (toLowerCase t)
  end.

(** White space and line terminators among the code units below 256:
    TAB, LF, VT, FF, CR, SPACE and NBSP. *)
Definition isWhiteSpace (c : ascii) : bool :=
  let n := nat_of_ascii c in
  ((9 <=? n) && (n <=? 13) || (n =? 32) || (n =? 160))%nat.

Fixpoint trimStart (s : string) : string :=
  match s with
  | EmptyString => EmptyString
  | String c t => if isWhiteSpace c then trimStart t else s
  end.

Fixpoint trimEnd (s : string) : string :=
  match s with
  | EmptyString => EmptyString
  | String c t =>
      match trimEnd t with
      | EmptyString => if isWhiteSpace c then EmptyString else String c EmptyString
      | t' => String c t'
      end
  end.

(** [String.prototype.trim]. *)
Definition trim (s : string) : string := trimEnd (trimStart s).

(** [s.includes(sub)]: [sub] occurs in [s] as a contiguous run. *)
Fixpoint includes (s sub : string) : bool :=
  String.prefix sub s
  || match s with
     | EmptyString => false
     | String _ t => includes t sub
     end.

(** JavaScript truthiness of a string: every string but the empty one. *)
Definition truthy (s : string) : bool :=
  match s with EmptyString => false | _ => true end.

(** Every code unit of [s] is white space. *)
Fixpoint isBlank (s : string) : bool :=
  match s with
  | EmptyString => true
  | String c t => isWhiteSpace c && isBlank t
  end.

End JsString.

(* ------------------------------------------------------------------ *)
(** ** src/types *)

Module Types.

Inductive Role := user | model.

Record Message := {
  role : Role;
  text : string;
  timestamp : N
}.

(** An [AudioBuffer] of the Web Audio API: [bufLength] sample frames at
    [bufSampleRate] frames per second, both at least one. *)
Record AudioBuffer := {
  bufLength : positive;
  bufSampleRate : positive
}.

(** [AudioBuffer.duration], in seconds. *)
Definition duration (b : AudioBuffer) : Q :=
  Zpos (bufLength b) # bufSampleRate b.

Record MeditationSession := {
  id : string;
  title : string;
  description : string;
  imagePrompt : string;
  script : string;
  imageUrl : option string;
  audioBuffer : option AudioBuffer
}.

Inductive AppMode := HOME | CREATE | CHAT | PLAYER.

Record GeneratorState := {
  isGeneratingScript : bool;
  isGeneratingImage : bool;
  isGeneratingAudio : bool;
  error : option string
}.

End Types.

(* ------------------------------------------------------------------ *)
(** ** Sample sessions *)

(** A session with ten seconds of audio, and one without audio. *)
Definition demoSession : Types.MeditationSession :=
  {| Types.id := "1"%string; Types.title := "Ocean Sunset Calm"%string;
     Types.description := "A calm evening by the sea"%string;
     Types.imagePrompt := "ocean at sunset"%string;
     Types.script := "Breathe in"%string;
     Types.imageUrl := Some "data:image/jpeg;base64,AAAA"%string;
     Types.audioBuffer :=
       Some {| Types.bufLength := 240000; Types.bufSampleRate := 24000 |} |}.

Definition silentSession : Types.MeditationSession :=
  {| Types.id := "2"%string; Types.title := "Quiet"%string;
     Types.description := "No voiceover"%string;
     Types.imagePrompt := "mist"%string; Types.script := EmptyString;
     Types.imageUrl := None; Types.audioBuffer := None |}.

(* ------------------------------------------------------------------ *)
(** ** src/components/MediaPlayer.tsx *)

Module MediaPlayer.

Import Types.
Local Open Scope Q_scope.

(** *** The platform objects the component holds *)

Inductive ContextState := running | suspended | closed.

(** The [AudioContext]: its clock (seconds) and its state. *)
Record AudioContext := {
  currentTime : Q;
  ctxState : ContextState
}.

(** An [AudioBufferSourceNode] on which [start(0, offset)] was called. *)
Record BufferSource := {
  buffer : AudioBuffer;
  startOffset : Q;
  stopped : bool
}.

Record GainNode := { gain : Q }.

(** The ambient [HTMLAudioElement]. *)
Record HTMLAudio := {
  loop : bool;
  volume : Q;
  paused : bool
}.

(** *** Component state *)

(** The five [useState] cells. *)
Record State := {
  isPlaying : bool;
  isMuted : bool;
  isAmbientOn : bool;
  progress : Q;
  isListening : bool
}.

(** The [useRef] cells.  [sources] lists every source node the component
    has started, newest first: [sourceRef.current] is its head. *)
Record Refs := {
  audioContextRef : option AudioContext;
  sources : list BufferSource;
  gainNodeRef : option GainNode;
  ambientAudioRef : option HTMLAudio;
  startTimeRef : Q;
  pauseTimeRef : Q;
  animationFrameRef : nat;
  isPlayingRef : bool;
  isMutedRef : bool;
  isAmbientOnRef : bool
}.

(** What the browser holds for the component: the animation-frame
    callbacks that are scheduled (all of them [updateProgress]) and the next
    handle [requestAnimationFrame] gives out; whether a [play()] on the
    ambient element is honoured right now, and whether the promise of the
    last [play()] was rejected (the [catch] that warns
    "Ambient play failed"); whether [SpeechRecognition] exists, and how many
    times the speech effect has run (its instances are numbered from 1, the
    last one being the only one whose [isEffectActive] is still true). *)
Record Platform := {
  rafQueue : list nat;
  rafNext : nat;
  ambientPlayable : bool;
  ambientPlayFailed : bool;
  speechSupported : bool;
  recEpoch : nat
}.

Record Player := {
  session : MeditationSession;
  state : State;
  refs : Refs;
  platform : Platform
}.

(** *** Field updates *)

Definition withState (f : State -> State) (p : Player) : Player :=
  {| session := session p; state := f (state p); refs := refs p;
     platform := platform p |}.

Definition withRefs (f : Refs -> Refs) (p : Player) : Player :=
  {| session := session p; state := state p; refs := f (refs p);
     platform := platform p |}.

Definition withPlatform (f : Platform -> Platform) (p : Player) : Player :=
  {| session := session p; state := state p; refs := refs p;
     platform := f (platform p) |}.

Definition setIsPlaying (b : bool) : Player -> Player :=
  withState (fun s =>
    {| isPlaying := b; isMuted := isMuted s; isAmbientOn := isAmbientOn s;
       progress := progress s; isListening := isListening s |}).

Definition setIsMuted (b : bool) : Player -> Player :=
  withState (fun s =>
    {| isPlaying := isPlaying s; isMuted := b; isAmbientOn := isAmbientOn s;
       progress := progress s; isListening := isListening s |}).

Definition setIsAmbientOn (f : bool -> bool) : Player -> Player :=
  withState (fun s =>
    {| isPlaying := isPlaying s; isMuted := isMuted s;
       isAmbientOn := f (isAmbientOn s);
       progress := progress s; isListening := isListening s |}).

Definition setProgress (q : Q) : Player -> Player :=
  withState (fun s =>
    {| isPlaying := isPlaying s; isMuted := isMuted s;
       isAmbientOn := isAmbientOn s;
       progress := q; isListening := isListening s |}).

Definition setIsListening (b : bool) : Player -> Player :=
  withState (fun s =>
    {| isPlaying := isPlaying s; isMuted := isMuted s;
       isAmbientOn := isAmbientOn s;
       progress := progress s; isListening := b |}).

Definition set_audioContextRef (c : option AudioContext) : Player -> Player :=
  withRefs (fun r =>
    {| audioContextRef := c; sources := sources r;
       gainNodeRef := gainNodeRef r; ambientAudioRef := ambientAudioRef r;
       startTimeRef := startTimeRef r; pauseTimeRef := pauseTimeRef r;
       animationFrameRef := animationFrameRef r;
       isPlayingRef := isPlayingRef r; isMutedRef := isMutedRef r;
       isAmbientOnRef := isAmbientOnRef r |}).

Definition set_sources (l : list BufferSource) : Player -> Player :=
  withRefs (fun r =>
    {| audioContextRef := audioContextRef r; sources := l;
       gainNodeRef := gainNodeRef r; ambientAudioRef := ambientAudioRef r;
       startTimeRef := startTimeRef r; pauseTimeRef := pauseTimeRef r;
       animationFrameRef := animationFrameRef r;
       isPlayingRef := isPlayingRef r; isMutedRef := isMutedRef r;
       isAmbientOnRef := isAmbientOnRef r |}).

Definition set_gainNodeRef (g : option GainNode) : Player -> Player :=
  withRefs (fun r =>
    {| audioContextRef := audioContextRef r; sources := sources r;
       gainNodeRef := g; ambientAudioRef := ambientAudioRef r;
       startTimeRef := startTimeRef r; pauseTimeRef := pauseTimeRef r;
       animationFrameRef := animationFrameRef r;
       isPlayingRef := isPlayingRef r; isMutedRef := isMutedRef r;
       isAmbientOnRef := isAmbientOnRef r |}).

Definition set_ambientAudioRef (a : option HTMLAudio) : Player -> Player :=
  withRefs (fun r =>
    {| audioContextRef := audioContextRef r; sources := sources r;
       gainNodeRef := gainNodeRef r; ambientAudioRef := a;
       startTimeRef := startTimeRef r; pauseTimeRef := pauseTimeRef r;
       animationFrameRef := animationFrameRef r;
       isPlayingRef := isPlayingRef r; isMutedRef := isMutedRef r;
       isAmbientOnRef := isAmbientOnRef r |}).

Definition set_startTimeRef (q : Q) : Player -> Player :=
  withRefs (fun r =>
    {| audioContextRef := audioContextRef r; sources := sources r;
       gainNodeRef := gainNodeRef r; ambientAudioRef := ambientAudioRef r;
       startTimeRef := q; pauseTimeRef := pauseTimeRef r;
       animationFrameRef := animationFrameRef r;
       isPlayingRef := isPlayingRef r; isMutedRef := isMutedRef r;
       isAmbientOnRef := isAmbientOnRef r |}).

Definition set_pauseTimeRef (q : Q) : Player -> Player :=
  withRefs (fun r =>
    {| audioContextRef := audioContextRef r; sources := sources r;
       gainNodeRef := gainNodeRef r; ambientAudioRef := ambientAudioRef r;
       startTimeRef := startTimeRef r; pauseTimeRef := q;
       animationFrameRef := animationFrameRef r;
       isPlayingRef := isPlayingRef r; isMutedRef := isMutedRef r;
       isAmbientOnRef := isAmbientOnRef r |}).

Definition set_animationFrameRef (n : nat) : Player -> Player :=
  withRefs (fun r =>
    {| audioContextRef := audioContextRef r; sources := sources r;
       gainNodeRef := gainNodeRef r; ambientAudioRef := ambientAudioRef r;
       startTimeRef := startTimeRef r; pauseTimeRef := pauseTimeRef r;
       animationFrameRef := n;
       isPlayingRef := isPlayingRef r; isMutedRef := isMutedRef r;
       isAmbientOnRef := isAmbientOnRef r |}).

Definition set_isPlayingRef (b : bool) : Player -> Player :=
  withRefs (fun r =>
    {| audioContextRef := audioContextRef r; sources := sources r;
       gainNodeRef := gainNodeRef r; ambientAudioRef := ambientAudioRef r;
       startTimeRef := startTimeRef r; pauseTimeRef := pauseTimeRef r;
       animationFrameRef := animationFrameRef r;
       isPlayingRef := b; isMutedRef := isMutedRef r;
       isAmbientOnRef := isAmbientOnRef r |}).

Definition set_isMutedRef (b : bool) : Player -> Player :=
  withRefs (fun r =>
    {| audioContextRef := audioContextRef r; sources := sources r;
       gainNodeRef := gainNodeRef r; ambientAudioRef := ambientAudioRef r;
       startTimeRef := startTimeRef r; pauseTimeRef := pauseTimeRef r;
       animationFrameRef := animationFrameRef r;
       isPlayingRef := isPlayingRef r; isMutedRef := b;
       isAmbientOnRef := isAmbientOnRef r |}).

Definition set_isAmbientOnRef (b : bool) : Player -> Player :=
  withRefs (fun r =>
    {| audioContextRef := audioContextRef r; sources := sources r;
       gainNodeRef := gainNodeRef r; ambientAudioRef := ambientAudioRef r;
       startTimeRef := startTimeRef r; pauseTimeRef := pauseTimeRef r;
       animationFrameRef := animationFrameRef r;
       isPlayingRef := isPlayingRef r; isMutedRef := isMutedRef r;
       isAmbientOnRef := b |}).

Definition set_rafQueue (l : list nat) : Player -> Player :=
  withPlatform (fun w =>
    {| rafQueue := l; rafNext := rafNext w;
       ambientPlayable := ambientPlayable w;
       ambientPlayFailed := ambientPlayFailed w;
       speechSupported := speechSupported w; recEpoch := recEpoch w |}).

Definition set_rafNext (n : nat) : Player -> Player :=
  withPlatform (fun w =>
    {| rafQueue := rafQueue w; rafNext := n;
       ambientPlayable := ambientPlayable w;
       ambientPlayFailed := ambientPlayFailed w;
       speechSupported := speechSupported w; recEpoch := recEpoch w |}).

Definition set_ambientPlayable (b : bool) : Player -> Player :=
  withPlatform (fun w =>
    {| rafQueue := rafQueue w; rafNext := rafNext w;
       ambientPlayable := b;
       ambientPlayFailed := ambientPlayFailed w;
       speechSupported := speechSupported w; recEpoch := recEpoch w |}).

Definition set_ambientPlayFailed (b : bool) : Player -> Player :=
  withPlatform (fun w =>
    {| rafQueue := rafQueue w; rafNext := rafNext w;
       ambientPlayable := ambientPlayable w;
       ambientPlayFailed := b;
       speechSupported := speechSupported w; recEpoch := recEpoch w |}).

Definition set_recEpoch (n : nat) : Player -> Player :=
  withPlatform (fun w =>
    {| rafQueue := rafQueue w; rafNext := rafNext w;
       ambientPlayable := ambientPlayable w;
       ambientPlayFailed := ambientPlayFailed w;
       speechSupported := speechSupported w; recEpoch := n |}).

(** *** Animation frames *)

(** [requestAnimationFrame(updateProgress)]: schedules the callback and
    returns its handle (handles are positive). *)
Definition requestAnimationFrame (p : Player) : nat * Player :=
  let h := rafNext (platform p) in
  (h, set_rafNext (S h) (set_rafQueue (rafQueue (platform p) ++ [h]) p)).

Definition cancelAnimationFrame (h : nat) (p : Player) : Player :=
  set_rafQueue (filter (fun k => negb (k =? h)%nat) (rafQueue (platform p))) p.

(** *** Playback *)

(** [session.audioBuffer?.duration || 1]. *)
Definition durationOr1 (s : MeditationSession) : Q :=
  match audioBuffer s with
  | Some b => if Qeq_bool (duration b) 0 then 1 else duration b
  | None => 1
  end.

(** The progress callback of [playAudio]. *)
Definition updateProgress (p : Player) : Player :=
  match audioContextRef (refs p) with
  | None => p
  | Some ctx =>
      let current := currentTime ctx - startTimeRef (refs p) in
      let duration := durationOr1 (session p) in
      let percent := (current / duration) * 100 in
      if Qle_bool 100 percent then
        set_pauseTimeRef 0 (setProgress 100 (setIsPlaying false p))
      else
        let p1 := setProgress percent p in
        let (h, p2) := requestAnimationFrame p1 in
        set_animationFrameRef h p2
  end.

Definition resume (c : AudioContext) : AudioContext :=
  {| currentTime := currentTime c; ctxState := running |}.

Definition playAudio (p : Player) : Player :=
  match audioContextRef (refs p), audioBuffer (session p),
        gainNodeRef (refs p) with
  | Some ctx, Some buf, Some _ =>
      let ctx := match ctxState ctx with
                 | suspended => resume ctx
                 | _ => ctx
                 end in
      let p := set_audioContextRef (Some ctx) p in
      let offset := pauseTimeRef (refs p) in
      let p := set_sources
                 ({| buffer := buf; startOffset := offset; stopped := false |}
                  :: sources (refs p)) p in
      let p := set_startTimeRef (currentTime ctx - offset) p in
      let p := setIsPlaying true p in
      updateProgress p
  | _, _, _ => p
  end.

Definition stop (s : BufferSource) : BufferSource :=
  {| buffer := buffer s; startOffset := startOffset s; stopped := true |}.

Definition pauseAudio (p : Player) : Player :=
  match sources (refs p), audioContextRef (refs p) with
  | src :: rest, Some ctx =>
      let p := set_sources (stop src :: rest) p in
      let p := set_pauseTimeRef (currentTime ctx - startTimeRef (refs p)) p in
      let p := setIsPlaying false p in
      if (animationFrameRef (refs p) =? 0)%nat then p
      else cancelAnimationFrame (animationFrameRef (refs p)) p
  | _, _ => p
  end.


Definition togglePlay (p : Player) : Player :=
  if isPlaying (state p) then pauseAudio p else playAudio p.

Definition toggleMute (p : Player) : Player :=
  match gainNodeRef (refs p) with
  | Some _ =>
      let nextState := negb (isMutedRef (refs p)) in
      let p := set_gainNodeRef
                 (Some {| gain := if nextState then 0 else 1 |}) p in
      setIsMuted nextState p
  | None => p
  end.

Definition toggleAmbient (p : Player) : Player := setIsAmbientOn negb p.

Definition toggleVoiceControl (p : Player) : Player :=
  setIsListening (negb (isListening (state p))) p.

(** *** Speech recognition callbacks *)

Section Recognition.

Import JsString.
Local Open Scope string_scope.

(** [recognition.onresult], given the transcript of the last result. *)
Definition onresult (transcript : string) (p : Player) : Player :=
  let command := trim (toLowerCase transcript) in
  if includes command "pause" || includes command "stop"
     || includes command "wait" then
    if isPlayingRef (refs p) then pauseAudio p else p
  else if includes command "play" || includes command "start"
          || includes command "resume" || includes command "begin" then
    if negb (isPlayingRef (refs p)) then playAudio p else p
  else if includes command "mute" || includes command "quiet"
          || includes command "silence" then
    if negb (isMutedRef (refs p)) then toggleMute p else p
  else if includes command "unmute" || includes command "sound"
          || includes command "volume" then
    if isMutedRef (refs p) then toggleMute p else p
  else if includes command "nature on" || includes command "ambient on"
          || includes command "background on" then
    if negb (isAmbientOnRef (refs p)) then setIsAmbientOn (fun _ => true) p
    else p
  else if includes command "nature off" || includes command "ambient off"
          || includes command "background off" then
    if isAmbientOnRef (refs p) then setIsAmbientOn (fun _ => false) p else p
  else p.

(** [recognition.onerror]; [isEffectActive] is the flag of the effect
    instance that installed the handler. *)
Definition onerror (isEffectActive : bool) (error : string) (p : Player)
  : Player :=
  if String.eqb error "no-speech" || String.eqb error "aborted" then p
  else if String.eqb error "not-allowed"
          || String.eqb error "service-not-allowed" then
    if isEffectActive then setIsListening false p else p
  else p.

End Recognition.

(** *** Effects *)

Definition setPaused (b : bool) (a : HTMLAudio) : HTMLAudio :=
  {| loop := loop a; volume := volume a; paused := b |}.

(** [ambientAudioRef.current?.play().catch(...)]: the element starts unless
    the platform rejects the request. *)
Definition ambientPlay (p : Player) : Player :=
  match ambientAudioRef (refs p) with
  | None => p
  | Some a =>
      if ambientPlayable (platform p) then
        set_ambientPlayFailed false
          (set_ambientAudioRef (Some (setPaused false a)) p)
      else set_ambientPlayFailed true p
  end.

(** [ambientAudioRef.current?.pause()]. *)
Definition ambientPause (p : Player) : Player :=
  match ambientAudioRef (refs p) with
  | None => p
  | Some a =>
      set_ambientPlayFailed false
        (set_ambientAudioRef (Some (setPaused true a)) p)
  end.

(** The effect on [[isPlaying, isAmbientOn]]. *)
Definition syncAmbient (p : Player) : Player :=
  if isPlaying (state p) && isAmbientOn (state p) then ambientPlay p
  else ambientPause p.

(** The speech effect creates a recognition instance when the browser has
    one; the clean-up of the previous run has switched the flag of the
    previous instance off. *)
Definition speechEffect (p : Player) : Player :=
  if speechSupported (platform p)
  then set_recEpoch (S (recEpoch (platform p))) p
  else p.

Definition changed (f : State -> bool) (prev next : Player) : bool :=
  negb (Bool.eqb (f (state prev)) (f (state next))).

(** The effects React runs after the render that follows a handler, in
    the order the component declares them; an effect runs when one of its
    dependencies differs from the previous render [prev]. *)
Definition runEffects (prev next : Player) : Player :=
  let p := if changed isPlaying prev next
           then set_isPlayingRef (isPlaying (state next)) next else next in
  let p := if changed isMuted prev next
           then set_isMutedRef (isMuted (state next)) p else p in
  let p := if changed isAmbientOn prev next
           then set_isAmbientOnRef (isAmbientOn (state next)) p else p in
  let p := if changed isPlaying prev next || changed isAmbientOn prev next
           then syncAmbient p else p in
  if changed isListening prev next then speechEffect p else p.

(** *** Mounting *)

Definition initialRender (s : MeditationSession)
    (playable supported : bool) : Player :=
  {| session := s;
     state := {| isPlaying := false; isMuted := false; isAmbientOn := false;
                 progress := 0; isListening := false |};
     refs := {| audioContextRef := None; sources := [];
                gainNodeRef := None; ambientAudioRef := None;
                startTimeRef := 0; pauseTimeRef := 0;
                animationFrameRef := 0%nat;
                isPlayingRef := false; isMutedRef := false;
                isAmbientOnRef := false |};
     platform := {| rafQueue := []; rafNext := 1%nat;
                    ambientPlayable := playable;
                    ambientPlayFailed := false;
                    speechSupported := supported; recEpoch := 0%nat |} |}.

(** The effects of the first render, all of them, in order; [ctx0] is the
    state in which the browser creates the audio context. *)
Definition mountEffects (ctx0 : ContextState) (p : Player) : Player :=
  let p := set_isPlayingRef (isPlaying (state p)) p in
  let p := set_isMutedRef (isMuted (state p)) p in
  let p := set_isAmbientOnRef (isAmbientOn (state p)) p in
  let p := set_ambientAudioRef
             (Some {| loop := true; volume := 15 # 100; paused := true |}) p in
  let p := syncAmbient p in
  let p := set_audioContextRef
             (Some {| currentTime := 0; ctxState := ctx0 |}) p in
  let p := set_gainNodeRef (Some {| gain := 1 |}) p in
  let p := playAudio p in
  speechEffect p.

Definition mount (s : MeditationSession) (ctx0 : ContextState)
    (playable supported : bool) : Player :=
  let p0 := initialRender s playable supported in
  runEffects p0 (mountEffects ctx0 p0).


(** *** Events *)

Inductive Event :=
| ClickPlay
| ClickMute
| ClickAmbient
| ClickVoice
| SpeechResult (instance : nat) (transcript : string)
| SpeechError (instance : nat) (error : string)
| AnimationFrame
| ClockAdvance (frames : N)
| AmbientPolicy (playable : bool).

Definition instanceExists (i : nat) (p : Player) : bool :=
  ((1 <=? i) && (i <=? recEpoch (platform p)))%nat.

Definition isEffectActive (i : nat) (p : Player) : bool :=
  (i =? recEpoch (platform p))%nat.

(** The component asks for a context of 24000 frames per second. *)
Definition contextSampleRate : positive := 24000.

(** The audio clock moves forward by a number of rendered frames (it
    never moves backwards; a clock that stands still is [advance 0]). *)
Definition advance (frames : N) (p : Player) : Player :=
  match audioContextRef (refs p) with
  | Some c =>
      set_audioContextRef
        (Some {| currentTime :=
                   currentTime c + (Z.of_N frames # contextSampleRate);
                 ctxState := ctxState c |}) p
  | None => p
  end.

(** A frame: the browser runs the callbacks scheduled so far; what they
    schedule waits for the next frame. *)
Definition runFrame (p : Player) : Player :=
  fold_left (fun q _ => updateProgress q) (rafQueue (platform p))
            (set_rafQueue [] p).

Definition handler (ev : Event) (p : Player) : Player :=
  match ev with
  | ClickPlay => togglePlay p
  | ClickMute => toggleMute p
  | ClickAmbient => toggleAmbient p
  | ClickVoice => toggleVoiceControl p
  | SpeechResult i t => if instanceExists i p then onresult t p else p
  | SpeechError i e =>
      if instanceExists i p then onerror (isEffectActive i p) e p else p
  | AnimationFrame => runFrame p
  | ClockAdvance n => advance n p
  | AmbientPolicy b => set_ambientPlayable b p
  end.

(** One event: its handler, then the render and its effects. *)
Definition step (ev : Event) (p : Player) : Player :=
  runEffects p (handler ev p).

Definition run (evs : list Event) (p : Player) : Player :=
  fold_left (fun q ev => step ev q) evs p.

(** The states a mounted player can be in.  The session is the one the
    player was mounted with: the application binds a session and mounts the
    player on it. *)
Inductive reachable : Player -> Prop :=
| reach_mount s ctx0 playable supported :
    reachable (mount s ctx0 playable supported)
| reach_step ev p : reachable p -> reachable (step ev p).

(** The ambient track sounds when its element exists and is not paused. *)
Definition ambientAudible (p : Player) : bool :=
  match ambientAudioRef (refs p) with
  | Some a => negb (paused a)
  | None => false
  end.

(** The four cells of the playback state. *)
Definition playback (p : Player) : bool * bool * bool * Q :=
  (isPlaying (state p), isMuted (state p), isAmbientOn (state p),
   progress (state p)).

(** The shadow refs hold what the state cells hold. *)
Definition synced (p : Player) : Prop :=
  isPlayingRef (refs p) = isPlaying (state p)
  /\ isMutedRef (refs p) = isMuted (state p)
  /\ isAmbientOnRef (refs p) = isAmbientOn (state p).

(** The players used as examples: a mounted player with audio, the same
    after a click on the mute button, and a mounted player whose session
    has no audio. *)
Definition demoPlayer : Player := mount demoSession running true true.

Definition mutedPlayer : Player := step ClickMute demoPlayer.

Definition silentPlayer : Player := mount silentSession running true true.

(** The percentage [updateProgress] computes when the clock of [c] is
    read. *)
Definition percentAt (p : Player) (c : AudioContext) : Q :=
  ((currentTime c - startTimeRef (refs p)) / durationOr1 (session p)) * 100.

(** *** Invariants of the mounted player *)

(** The ambient element exists; it sounds exactly when the player is
    playing with ambient on and its last [play()] was not rejected; and a
    rejected [play()] is on record only while both flags are on. *)
Definition ambientInv (p : Player) : Prop :=
  (exists a, ambientAudioRef (refs p) = Some a)
  /\ ambientAudible p
     = isPlaying (state p) && isAmbientOn (state p)
       && negb (ambientPlayFailed (platform p))
  /\ (ambientPlayFailed (platform p) = true ->
      isPlaying (state p) && isAmbientOn (state p) = true).

(** While playing there is a context, a started source and exactly one
    scheduled progress callback, the one [animationFrameRef] names, and the
    progress shown is not ahead of the clock; while not playing nothing is
    scheduled. *)
Definition loopInv (p : Player) : Prop :=
  (1 <= rafNext (platform p))%nat
  /\ 0 <= pauseTimeRef (refs p)
  /\ 0 <= progress (state p) <= 100
  /\ (forall c, audioContextRef (refs p) = Some c ->
        startTimeRef (refs p) <= currentTime c)
  /\ (isPlaying (state p) = true ->
      exists c src rest,
        audioContextRef (refs p) = Some c
        /\ sources (refs p) = src :: rest
        /\ animationFrameRef (refs p) <> 0%nat
        /\ rafQueue (platform p) = [animationFrameRef (refs p)]
        /\ progress (state p) <= percentAt p c)
  /\ (isPlaying (state p) = false -> rafQueue (platform p) = []).

Definition Inv (p : Player) : Prop :=
  synced p /\ ambientInv p /\ loopInv p.

(** What the handlers never write: the shadow refs, the ambient element
    and the record of its last [play()]. *)
Definition shadow (p : Player)
  : bool * bool * bool * option HTMLAudio * bool :=
  (isPlayingRef (refs p), isMutedRef (refs p), isAmbientOnRef (refs p),
   ambientAudioRef (refs p), ambientPlayFailed (platform p)).

(** What the effects never write. *)
Definition core (p : Player) :=
  (session p, state p, audioContextRef (refs p), sources (refs p),
   gainNodeRef (refs p), startTimeRef (refs p), pauseTimeRef (refs p),
   animationFrameRef (refs p), rafQueue (platform p), rafNext (platform p),
   ambientPlayable (platform p), speechSupported (platform p)).

(** The mounted player has its audio context and its gain node, and it
    has started a source only on a session that has audio. *)
Definition audioInv (p : Player) : Prop :=
  (exists c, audioContextRef (refs p) = Some c)
  /\ (exists g, gainNodeRef (refs p) = Some g)
  /\ (sources (refs p) <> [] -> exists b, audioBuffer (session p) = Some b).

(** What the loop invariant reads. *)
Definition loopCore (p : Player) :=
  (session p, isPlaying (state p), progress (state p),
   audioContextRef (refs p), sources (refs p), startTimeRef (refs p),
   pauseTimeRef (refs p), animationFrameRef (refs p),
   rafQueue (platform p), rafNext (platform p)).

(** The platform keeps honouring [play()] on the ambient element. *)
Definition honours (ev : Event) : bool :=
  match ev with
  | AmbientPolicy false => false
  | _ => true
  end.

(** *** Views the proofs use *)



(** Whether the browser has speech recognition, and the number of
    recognition instances created so far. *)
Definition speechView (p : Player) : bool * nat :=
  (speechSupported (platform p), recEpoch (platform p)).

End MediaPlayer.

(* ------------------------------------------------------------------ *)
(** ** src/components/Generator.tsx *)

Module Plan.

(** The object [generateMeditationPlan] resolves to. *)
Record t := {
  title : string;
  description : string;
  script : string;
  imagePrompt : string
}.

End Plan.

Module Generator.

Import Types.
Local Open Scope string_scope.

(** A thrown value. *)
Definition Error := string.

(** The three calls of src/services/geminiService the pipeline makes.  Each
    is a request to the hosted model: what it resolves or rejects with is
    given by the backend. *)
Record Services := {
  generateMeditationPlan : string -> Error + Plan.t;
  generateMeditationImage : string -> Error + string;
  generateMeditationAudio : string -> Error + AudioBuffer
}.

Inductive ServiceCall :=
| PlanCall (userPrompt : string)
| ImageCall (prompt : string)
| AudioCall (script : string).

(** The component ([prompt], [status]) with what it does to the outside:
    the service calls it has issued, oldest first, and the sessions it has
    passed to [onSessionCreated]. *)
Record World := {
  prompt : string;
  status : GeneratorState;
  calls : list ServiceCall;
  created : list MeditationSession
}.

(** *** A state and exception monad for the asynchronous handler *)

Definition M (A : Type) : Type := World -> (Error + A) * World.

Definition ret {A} (a : A) : M A := fun w => (inr a, w).

Definition bind {A B} (m : M A) (k : A -> M B) : M B :=
  fun w =>
    match m w with
    | (inr a, w') => k a w'
    | (inl e, w') => (inl e, w')
    end.

Definition throw {A} (e : Error) : M A := fun w => (inl e, w).

(** [try { m } catch (error) { h error }], and [promise.catch(h)]. *)
Definition catch {A} (m : M A) (h : Error -> M A) : M A :=
  fun w =>
    match m w with
    | (inr a, w') => (inr a, w')
    | (inl e, w') => h e w'
    end.

(** [await Promise.all([a, b])]: both promises exist, so both requests have
    been issued, before the result is awaited; it rejects when one of them
    rejects. *)
Definition promiseAll {A B} (a : M A) (b : M B) : M (A * B) :=
  fun w =>
    let (ra, w1) := a w in
    let (rb, w2) := b w1 in
    (match ra, rb with
     | inr x, inr y => inr (x, y)
     | inl e, _ => inl e
     | _, inl e => inl e
     end, w2).

Declare Scope gen_scope.
Delimit Scope gen_scope with gen.
Notation "x <- m ;; k" := (bind m (fun x => k))
  (at level 61, m at next level, right associativity) : gen_scope.
Notation "m ;; k" := (bind m (fun _ => k))
  (at level 61, right associativity) : gen_scope.

Definition setStatus (f : GeneratorState -> GeneratorState) : M unit :=
  fun w => (inr tt, {| prompt := prompt w; status := f (status w);
                       calls := calls w; created := created w |}).

Definition issue (c : ServiceCall) : M unit :=
  fun w => (inr tt, {| prompt := prompt w; status := status w;
                       calls := calls w ++ [c]; created := created w |}).

Definition settle {A} (r : Error + A) : M A :=
  match r with inr a => ret a | inl e => throw e end.

Definition callPlan (svc : Services) (userPrompt : string) : M Plan.t :=
  bind (issue (PlanCall userPrompt))
       (fun _ => settle (generateMeditationPlan svc userPrompt)).

Definition callImage (svc : Services) (p : string) : M string :=
  bind (issue (ImageCall p))
       (fun _ => settle (generateMeditationImage svc p)).

Definition callAudio (svc : Services) (s : string) : M AudioBuffer :=
  bind (issue (AudioCall s))
       (fun _ => settle (generateMeditationAudio svc s)).

Definition onSessionCreated (s : MeditationSession) : M unit :=
  fun w => (inr tt, {| prompt := prompt w; status := status w;
                       calls := calls w; created := created w ++ [s] |}).

Definition fallbackImage : string := "https://picsum.photos/1920/1080".

Definition genericError : string :=
  "Something went wrong creating your session. Please try again.".

(** [Date.now().toString()]. *)
Definition toString (n : N) : string := NilEmpty.string_of_uint (N.to_uint n).

Local Open Scope gen_scope.

(** [handleGenerate], run until its promise settles; [now] is what
    [Date.now()] returns when the session is assembled. *)
Definition handleGenerate (svc : Services) (now : N) (w : World) : World :=
  if negb (JsString.truthy (JsString.trim (prompt w))) then w
  else
    snd ((setStatus (fun _ =>
            {| isGeneratingScript := true; isGeneratingImage := false;
               isGeneratingAudio := false; error := None |}) ;;
          catch
            (plan <- callPlan svc (prompt w) ;;
             setStatus (fun prev =>
               {| isGeneratingScript := false; isGeneratingImage := true;
                  isGeneratingAudio := true; error := error prev |}) ;;
             r <- promiseAll
                    (catch (callImage svc (Plan.imagePrompt plan))
                           (fun _ => ret fallbackImage))
                    (catch (callAudio svc (Plan.script plan))
                           (fun e => throw e)) ;;
             let newSession :=
               {| id := toString now;
                  title := Plan.title plan;
                  description := Plan.description plan;
                  imagePrompt := Plan.imagePrompt plan;
                  script := Plan.script plan;
                  imageUrl := Some (fst r);
                  audioBuffer := Some (snd r) |} in
             setStatus (fun prev =>
               {| isGeneratingScript := isGeneratingScript prev;
                  isGeneratingImage := false;
                  isGeneratingAudio := false; error := error prev |}) ;;
             onSessionCreated newSession)
            (fun _ =>
               setStatus (fun _ =>
                 {| isGeneratingScript := false; isGeneratingImage := false;
                    isGeneratingAudio := false;
                    error := Some genericError |}))) w).

(** The FAILED state of the pipeline: nothing in flight, and the generic
    message shown. *)
Definition FAILED (s : GeneratorState) : Prop :=
  s = {| isGeneratingScript := false; isGeneratingImage := false;
         isGeneratingAudio := false; error := Some genericError |}.

(** The component as first rendered, with [p] typed into the text area. *)
Definition initial (p : string) : World :=
  {| prompt := p;
     status := {| isGeneratingScript := false; isGeneratingImage := false;
                  isGeneratingAudio := false; error := None |};
     calls := []; created := [] |}.

(** The handler starts only on a prompt that is not blank. *)
Definition promptGiven (w : World) : Prop :=
  JsString.truthy (JsString.trim (prompt w)) = true.

(** *** Sample backends *)

Definition oceanPlan : Plan.t :=
  {| Plan.title := "Ocean Sunset Calm";
     Plan.description := "A calm evening by the sea";
     Plan.script := "Breathe in with the tide.";
     Plan.imagePrompt := "ocean at sunset, soft light" |}.

Definition oceanAudio : AudioBuffer :=
  {| bufLength := 240000; bufSampleRate := 24000 |}.

(** The generator with a prompt typed in. *)
Definition oceanWorld : World := initial "ocean at sunset".

(** The plan request fails. *)
Definition planFails : Services :=
  {| generateMeditationPlan := fun _ => inl "No plan generated";
     generateMeditationImage := fun _ => inr "data:image/jpeg;base64,AAAA";
     generateMeditationAudio := fun _ => inr oceanAudio |}.

(** The audio request fails, the image request succeeds. *)
Definition audioFails : Services :=
  {| generateMeditationPlan := fun _ => inr oceanPlan;
     generateMeditationImage := fun _ => inr "data:image/jpeg;base64,AAAA";
     generateMeditationAudio := fun _ => inl "No audio data received" |}.

(** The image request fails, the audio request succeeds. *)
Definition imageFails : Services :=
  {| generateMeditationPlan := fun _ => inr oceanPlan;
     generateMeditationImage := fun _ => inl "Failed to generate image";
     generateMeditationAudio := fun _ => inr oceanAudio |}.

(** A request of the pipeline is in flight. *)
Definition busy (s : GeneratorState) : bool :=
  isGeneratingScript s || isGeneratingImage s || isGeneratingAudio s.

(** The [disabled] attribute of the button that runs [handleGenerate]. *)
Definition generateDisabled (w : World) : bool :=
  busy (status w) || negb (JsString.truthy (prompt w)).

End Generator.

(* ------------------------------------------------------------------ *)
(** ** src/components/ChatBot.tsx *)

Module ChatBot.

Import Types.
Local Open Scope string_scope.

(** An entry of the history handed to [sendChatMessage]. *)
Record HistoryEntry := {
  hrole : Role;
  parts : list string
}.

(** How the awaited [sendChatMessage] settles: it throws, or it returns
    [result.text], a string or [undefined]. *)
Inductive Reply :=
| Rejected (e : string)
| Resolved (responseText : option string).

(** The request a [handleSend] is waiting on. *)
Record Request := {
  history : list HistoryEntry;
  newMessage : string
}.

Record ChatBot := {
  input : string;
  messages : list Message;
  isLoading : bool;
  inflight : option Request
}.

Definition greeting : string :=
  "Hello! I'm your mindfulness companion. How are you feeling today?".

Definition connectivityFailure : string :=
  "I'm having trouble connecting right now. Please try again.".

(** The first render; [now] is the time of the greeting. *)
Definition initial (now : N) : ChatBot :=
  {| input := EmptyString;
     messages := [{| role := model; text := greeting; timestamp := now |}];
     isLoading := false;
     inflight := None |}.

Definition setInput (s : string) (c : ChatBot) : ChatBot :=
  {| input := s; messages := messages c; isLoading := isLoading c;
     inflight := inflight c |}.

Definition setMessages (f : list Message -> list Message) (c : ChatBot)
  : ChatBot :=
  {| input := input c; messages := f (messages c); isLoading := isLoading c;
     inflight := inflight c |}.

Definition setIsLoading (b : bool) (c : ChatBot) : ChatBot :=
  {| input := input c; messages := messages c; isLoading := b;
     inflight := inflight c |}.

Definition setInflight (r : option Request) (c : ChatBot) : ChatBot :=
  {| input := input c; messages := messages c; isLoading := isLoading c;
     inflight := r |}.

(** JavaScript truthiness of [string | undefined]. *)
Definition truthyText (t : option string) : bool :=
  match t with
  | Some s => JsString.truthy s
  | None => false
  end.

(** [handleSend] up to its [await]: the guard, the user message, and the
    request, whose history is the transcript of the render the handler
    belongs to. *)
Definition handleSend_start (now : N) (c : ChatBot) : ChatBot :=
  if negb (JsString.truthy (JsString.trim (input c))) || isLoading c then c
  else
    let userMsg := {| role := user; text := input c; timestamp := now |} in
    let history :=
      map (fun m => {| hrole := role m; parts := [text m] |}) (messages c) in
    let c1 := setMessages (fun prev => (prev ++ [userMsg])%list) c in
    let c1 := setInput EmptyString c1 in
    let c1 := setIsLoading true c1 in
    setInflight (Some {| history := history; newMessage := text userMsg |}) c1.

(** [handleSend] from the point its [await] settles: [try], [catch],
    [finally]. *)
Definition handleSend_finish (reply : Reply) (now : N) (c : ChatBot)
  : ChatBot :=
  match inflight c with
  | None => c
  | Some _ =>
      let c1 :=
        match reply with
        | Resolved responseText =>
            match responseText with
            | Some t =>
                if JsString.truthy t then
                  setMessages (fun prev =>
                    (prev ++ [{| role := model; text := t;
                                 timestamp := now |}])%list) c
                else c
            | None => c
            end
        | Rejected _ =>
            setMessages (fun prev =>
              (prev ++ [{| role := model; text := connectivityFailure;
                           timestamp := now |}])%list) c
        end in
      setInflight None (setIsLoading false c1)
  end.

(** A completed send operation: the user types [typed] and sends it at
    [sentAt]; the service settles with [reply] at [settledAt]. *)
Record SendOp := {
  typed : string;
  sentAt : N;
  reply : Reply;
  settledAt : N
}.

Definition send (c : ChatBot) (op : SendOp) : ChatBot :=
  handleSend_finish (reply op) (settledAt op)
    (handleSend_start (sentAt op) (setInput (typed op) c)).

Definition sendAll (ops : list SendOp) (c : ChatBot) : ChatBot :=
  fold_left send ops c.

(** A send operation starts only when the trimmed input is not empty. *)
Definition sendable (op : SendOp) : bool :=
  JsString.truthy (JsString.trim (typed op)).

(** What a completed send operation adds to the transcript: the user
    message, then the response, if there is one. *)
Definition userMessage (op : SendOp) : Message :=
  {| role := user; text := typed op; timestamp := sentAt op |}.

Definition response (op : SendOp) : list Message :=
  match reply op with
  | Resolved (Some t) =>
      if JsString.truthy t
      then [{| role := model; text := t; timestamp := settledAt op |}]
      else []
  | Resolved None => []
  | Rejected _ =>
      [{| role := model; text := connectivityFailure;
          timestamp := settledAt op |}]
  end.

Definition exchange (op : SendOp) : list Message :=
  userMessage op :: response op.

(** The service answered with a text that is not empty, or failed. *)
Definition answered (op : SendOp) : bool :=
  match reply op with
  | Resolved t => truthyText t
  | Rejected _ => true
  end.

(** Between two send operations no request is outstanding. *)
Definition idle (c : ChatBot) : Prop :=
  isLoading c = false /\ inflight c = None.

(** One operation, answered with a text, then with a failure. *)
Definition sampleOps : list SendOp :=
  [ {| typed := "How do I start?"; sentAt := 5;
       reply := Resolved (Some "Begin with one breath."%string);
       settledAt := 6 |};
    {| typed := "And then?"; sentAt := 7;
       reply := Rejected "network"; settledAt := 8 |} ].

(** *** The panel under its events *)

(** The user edits the input, the user sends (the button or the Enter
    key), the awaited request settles. *)
Inductive Event :=
| Typing (s : string)
| Send (now : N)
| Settled (reply : Reply) (now : N).

Definition step (ev : Event) (c : ChatBot) : ChatBot :=
  match ev with
  | Typing s => setInput s c
  | Send now => handleSend_start now c
  | Settled reply now => handleSend_finish reply now c
  end.

Definition run (evs : list Event) (c : ChatBot) : ChatBot :=
  fold_left (fun c ev => step ev c) evs c.

(** [messages.map(m => ({ role: m.role, parts: [{ text: m.text }] }))]. *)
Definition toHistory (l : list Message) : list HistoryEntry :=
  map (fun m => {| hrole := role m; parts := [text m] |}) l.

(** The [disabled] attribute of the send button. *)
Definition sendDisabled (c : ChatBot) : bool :=
  isLoading c || negb (JsString.truthy (JsString.trim (input c))).

(** Read from the newest message back: a message of the model that is not
    the oldest one follows a message of the user. *)
Fixpoint answersOnly (newestFirst : list Message) : Prop :=
  match newestFirst with
  | m2 :: (m1 :: _) as older =>
      (role m2 = model -> role m1 = user) /\ answersOnly older
  | _ => True
  end.
(** The invariant of the panel. *)
Definition chatInv (c : ChatBot) : Prop :=
  answersOnly (rev (messages c))
  /\ (exists t0 rest,
        messages c
        = {| role := model; text := greeting; timestamp := t0 |} :: rest)
  /\ (forall m, In m (messages c) ->
        match role m with
        | user => JsString.isBlank (text m) = false
        | model => text m <> EmptyString
        end)
  /\ match inflight c with
     | Some r =>
         isLoading c = true
         /\ exists before sentAt,
              messages c
              = (before ++ [{| role := user; text := newMessage r;
                               timestamp := sentAt |}])%list
              /\ history r = toHistory before
     | None => isLoading c = false
     end.

End ChatBot.

(* ------------------------------------------------------------------ *)
(** ** src/App.tsx *)

Module App.

Import Types.

Record App := {
  currentMode : AppMode;
  activeSession : option MeditationSession
}.

Definition initial : App :=
  {| currentMode := CREATE; activeSession := None |}.

Definition setCurrentMode (m : AppMode) (a : App) : App :=
  {| currentMode := m; activeSession := activeSession a |}.

Definition setActiveSession (s : option MeditationSession) (a : App) : App :=
  {| currentMode := currentMode a; activeSession := s |}.

Definition handleSessionCreated (s : MeditationSession) (a : App) : App :=
  setCurrentMode PLAYER (setActiveSession (Some s) a).

Definition closePlayer (a : App) : App := setCurrentMode CREATE a.

(** The player overlay is rendered in PLAYER mode when a session is bound. *)
Definition playerShown (a : App) : option MeditationSession :=
  match currentMode a with
  | PLAYER => activeSession a
  | _ => None
  end.

(** *** The shell under its events *)

(** The two buttons of the header, the generator handing over a session,
    and the player's close button. *)
Inductive Event :=
| NavGenerate
| NavChat
| SessionCreated (s : MeditationSession)
| ClosePlayer.

Definition step (ev : Event) (a : App) : App :=
  match ev with
  | NavGenerate => setCurrentMode CREATE a
  | NavChat => setCurrentMode CHAT a
  | SessionCreated s => handleSessionCreated s a
  | ClosePlayer => closePlayer a
  end.

Definition run (evs : list Event) (a : App) : App :=
  fold_left (fun a ev => step ev a) evs a.

(** The generator is rendered in CREATE mode only. *)
Definition generatorShown (a : App) : bool :=
  match currentMode a with CREATE => true | _ => false end.

(** The session of the newest [SessionCreated] of a trace. *)
Fixpoint newest (evs : list Event) (before : option MeditationSession)
  : option MeditationSession :=
  match evs with
  | [] => before
  | SessionCreated s :: rest => newest rest (Some s)
  | _ :: rest => newest rest before
  end.

End App.

(* ------------------------------------------------------------------ *)
(** ** src/services/geminiService.ts *)

Module GeminiService.

Local Open Scope string_scope.

Definition Error := Generator.Error.

(** *** The hosted API, as the client library shows it *)

(** [ai.chats.create({model, history, config})] followed by
    [chat.sendMessage({message})]. *)
Record ChatRequest := {
  chatModel : string;
  history : list ChatBot.HistoryEntry;
  systemInstruction : string;
  message : string
}.

(** [contents] of [generateContent]: a string, or a list of contents, each
    a list of text parts. *)
Inductive Contents :=
| Prompt (s : string)
| ContentList (l : list (list string)).

Record ContentRequest := {
  contentModel : string;
  contents : Contents;
  responseMimeType : option string;
  required : list string;
  responseModalities : list string;
  voiceName : option string
}.

Record ImagesRequest := {
  imagesModel : string;
  imagesPrompt : string;
  numberOfImages : nat;
  outputMimeType : string;
  aspectRatio : string
}.

(** What the handlers read of a response: [result.text], and
    [response.candidates?.[0]?.content?.parts?.[0]?.inlineData?.data]. *)
Record ContentResponse := {
  text : option string;
  inlineData : option string
}.

(** [response.generatedImages], each entry with its
    [image?.imageBytes]. *)
Record ImagesResponse := {
  generatedImages : option (list (option string))
}.

(** The environment of the module: the key of the process, the hosted API
    reached with a key, [JSON.parse] read at the type of a plan, and the
    decoding of src/utils/audioUtils ([decodeAudioData(decode(data),
    createAudioContext(), 24000, 1)]). *)
Record Env := {
  API_KEY : option string;
  sendMessage : string -> ChatRequest -> Error + ContentResponse;
  generateContent : string -> ContentRequest -> Error + ContentResponse;
  generateImages : string -> ImagesRequest -> Error + ImagesResponse;
  JSON_parse : string -> Error + Plan.t;
  decodeAudioData : string -> Error + Types.AudioBuffer
}.

(** *** The module *)

Definition bind {A B} (m : Error + A) (k : A -> Error + B) : Error + B :=
  match m with
  | inr a => k a
  | inl e => inl e
  end.

Definition getApiKey (env : Env) : Error + string :=
  match API_KEY env with
  | Some key => if JsString.truthy key then inr key else inl "API Key missing"
  | None => inl "API Key missing"
  end.

Definition coachInstruction : string :=
  "You are a wise, calming, and empathetic meditation coach. Keep answers concise, supportive, and focused on mindfulness.".

Definition chatRequest (history : list ChatBot.HistoryEntry)
    (newMessage : string) : ChatRequest :=
  {| chatModel := "gemini-3-pro-preview";
     history := history;
     systemInstruction := coachInstruction;
     message := newMessage |}.

Definition sendChatMessage (env : Env) (history : list ChatBot.HistoryEntry)
    (newMessage : string) : Error + option string :=
  bind (getApiKey env) (fun key =>
  bind (sendMessage env key (chatRequest history newMessage)) (fun result =>
  inr (text result))).

(** The quotation mark and the line feed of the template literals. *)
Definition quote : string := String (ascii_of_nat 34) EmptyString.
Definition LF : string := String (ascii_of_nat 10) EmptyString.

Definition quoted (s : string) : string := quote ++ s ++ quote.

Definition planPrompt (userPrompt : string) : string :=
  LF ++ "    Create a guided meditation session plan based on this user request: "
     ++ quoted userPrompt ++ "." ++ LF
  ++ "    " ++ LF
  ++ "    Return ONLY a valid JSON object with this structure:" ++ LF
  ++ "    {" ++ LF
  ++ "      " ++ quoted "title" ++ ": " ++ quoted "A short title" ++ "," ++ LF
  ++ "      " ++ quoted "description" ++ ": "
     ++ quoted "A brief 1 sentence summary" ++ "," ++ LF
  ++ "      " ++ quoted "script" ++ ": "
     ++ quoted "The full meditation script to be read aloud (approx 100-150 words). Keep it soothing."
     ++ "," ++ LF
  ++ "      " ++ quoted "imagePrompt" ++ ": "
     ++ quoted "A detailed prompt for an AI image generator to create a calming background scene matching the script."
     ++ LF
  ++ "    }" ++ LF
  ++ "  ".

Definition planRequest (userPrompt : string) : ContentRequest :=
  {| contentModel := "gemini-3-pro-preview";
     contents := Prompt (planPrompt userPrompt);
     responseMimeType := Some "application/json";
     required := ["title"; "description"; "script"; "imagePrompt"];
     responseModalities := [];
     voiceName := None |}.

Definition generateMeditationPlan (env : Env) (userPrompt : string)
  : Error + Plan.t :=
  bind (getApiKey env) (fun key =>
  bind (generateContent env key (planRequest userPrompt)) (fun result =>
  match text result with
  | Some t => if JsString.truthy t then JSON_parse env t
              else inl "No plan generated"
  | None => inl "No plan generated"
  end)).

Definition enhancedPrompt (prompt : string) : string :=
  "High quality, photorealistic, calm, cinematic lighting, 8k resolution, soft colors: "
  ++ prompt.

Definition imagesRequest (prompt : string) : ImagesRequest :=
  {| imagesModel := "imagen-4.0-generate-001";
     imagesPrompt := enhancedPrompt prompt;
     numberOfImages := 1;
     outputMimeType := "image/jpeg";
     aspectRatio := "16:9" |}.

(** Reading index 0 of [undefined] throws a TypeError; its message is the
    engine's, the error is named by its class here. *)
Definition typeError : Error := "TypeError".

Definition dataUrl (base64ImageBytes : string) : string :=
  "data:image/jpeg;base64," ++ base64ImageBytes.

Definition generateMeditationImage (env : Env) (prompt : string)
  : Error + string :=
  bind (getApiKey env) (fun key =>
  bind (generateImages env key (imagesRequest prompt)) (fun response =>
  match generatedImages response with
  | None => inl typeError
  | Some images =>
      match nth_error images 0 with
      | Some (Some base64ImageBytes) =>
          if JsString.truthy base64ImageBytes
          then inr (dataUrl base64ImageBytes)
          else inl "Failed to generate image"
      | _ => inl "Failed to generate image"
      end
  end)).

Definition speechRequest (script : string) : ContentRequest :=
  {| contentModel := "gemini-2.5-flash-preview-tts";
     contents := ContentList [[script]];
     responseMimeType := None;
     required := [];
     responseModalities := ["AUDIO"];
     voiceName := Some "Kore" |}.

Definition generateMeditationAudio (env : Env) (script : string)
  : Error + Types.AudioBuffer :=
  bind (getApiKey env) (fun key =>
  bind (generateContent env key (speechRequest script)) (fun response =>
  match inlineData response with
  | Some base64Audio =>
      if JsString.truthy base64Audio then decodeAudioData env base64Audio
      else inl "No audio data received"
  | None => inl "No audio data received"
  end)).

(** *** The module as the components import it *)

Definition services (env : Env) : Generator.Services :=
  {| Generator.generateMeditationPlan := generateMeditationPlan env;
     Generator.generateMeditationImage := generateMeditationImage env;
     Generator.generateMeditationAudio := generateMeditationAudio env |}.

(** How the awaited [sendChatMessage] settles in [handleSend]. *)
Definition reply (env : Env) (r : ChatBot.Request) : ChatBot.Reply :=
  match sendChatMessage env (ChatBot.history r) (ChatBot.newMessage r) with
  | inl e => ChatBot.Rejected e
  | inr responseText => ChatBot.Resolved responseText
  end.

(** One [handleSend] of the chat panel against the module: started at
    [sentAt], settled at [settledAt]. *)
Definition handleSend (env : Env) (sentAt settledAt : N)
    (c : ChatBot.ChatBot) : ChatBot.ChatBot :=
  let c1 := ChatBot.handleSend_start sentAt c in
  match ChatBot.inflight c1 with
  | Some r => ChatBot.handleSend_finish (reply env r) settledAt c1
  | None => c1
  end.

(** [process.env.API_KEY] is undefined or empty. *)
Definition API_KEY_missing (env : Env) : Prop :=
  API_KEY env = None \/ API_KEY env = Some EmptyString.

(** *** Sample environments *)

Definition noKey : Env :=
  {| API_KEY := None;
     sendMessage := fun _ _ => inr {| text := Some "hello"; inlineData := None |};
     generateContent := fun _ _ =>
       inr {| text := Some "{}"; inlineData := Some "AAAA" |};
     generateImages := fun _ _ =>
       inr {| generatedImages := Some [Some "AAAA"] |};
     JSON_parse := fun _ => inr Generator.oceanPlan;
     decodeAudioData := fun _ => inr Generator.oceanAudio |}.

Definition withKey : Env :=
  {| API_KEY := Some "k";
     sendMessage := sendMessage noKey;
     generateContent := generateContent noKey;
     generateImages := generateImages noKey;
     JSON_parse := JSON_parse noKey;
     decodeAudioData := decodeAudioData noKey |}.

End GeminiService.

(* ------------------------------------------------------------------ *)
(** ** The voice commands as the specification words them *)

Module VoiceSpec.

Import JsString MediaPlayer.
Local Open Scope string_scope.

Inductive Command := Pause | Play | Mute | Unmute | AmbientOn | AmbientOff.

(** The keyword set of each command. *)
Definition keywords (c : Command) : list string :=
  match c with
  | Pause => ["pause"; "stop"; "wait"]
  | Play => ["play"; "start"; "resume"; "begin"]
  | Mute => ["mute"; "quiet"; "silence"]
  | Unmute => ["unmute"; "sound"; "volume"]
  | AmbientOn => ["nature on"; "ambient on"; "background on"]
  | AmbientOff => ["nature off"; "ambient off"; "background off"]
  end.

(** The priority order, and the place of a command in it. *)
Definition priority : list Command :=
  [Pause; Play; Mute; Unmute; AmbientOn; AmbientOff].

Definition rank (c : Command) : nat :=
  match c with
  | Pause => 0
  | Play => 1
  | Mute => 2
  | Unmute => 3
  | AmbientOn => 4
  | AmbientOff => 5
  end.

(** An utterance matches a keyword set when it contains one of its
    keywords. *)
Definition matches (command : string) (c : Command) : bool :=
  existsb (includes command) (keywords c).

(** The command of an utterance: the first set, in priority order, that it
    matches. *)
Definition recognize (command : string) : option Command :=
  find (matches command) priority.

(** The state in which a command fires. *)
Definition fires (c : Command) (p : Player) : bool :=
  match c with
  | Pause => isPlaying (state p)
  | Play => negb (isPlaying (state p))
  | Mute => negb (isMuted (state p))
  | Unmute => isMuted (state p)
  | AmbientOn => negb (isAmbientOn (state p))
  | AmbientOff => isAmbientOn (state p)
  end.

Definition perform (c : Command) (p : Player) : Player :=
  match c with
  | Pause => pauseAudio p
  | Play => playAudio p
  | Mute | Unmute => toggleMute p
  | AmbientOn => setIsAmbientOn (fun _ => true) p
  | AmbientOff => setIsAmbientOn (fun _ => false) p
  end.

(** The dispatcher of the specification. *)
Definition dispatch (transcript : string) (p : Player) : Player :=
  match recognize (trim (toLowerCase transcript)) with
  | Some c => if fires c p then perform c p else p
  | None => p
  end.

(** The events that ask for playback when the player is not playing: a
    click on the play button, and an utterance whose command is play. *)
Definition requestsPlay (ev : Event) : bool :=
  match ev with
  | ClickPlay => true
  | SpeechResult _ t =>
      match recognize (trim (toLowerCase t)) with
      | Some Play => true
      | _ => false
      end
  | _ => false
  end.

(** The button that does what a voice command does. *)
Definition button (c : Command) : Event :=
  match c with
  | Pause | Play => ClickPlay
  | Mute | Unmute => ClickMute
  | AmbientOn | AmbientOff => ClickAmbient
  end.

End VoiceSpec.

(* ------------------------------------------------------------------ *)
(** * Properties *)

(* ------------------------------------------------------------------ *)
(** ** Application shell *)

Section AppFacts.

Import Types App.

(** C9. Closing the player switches the mode back to the Generate view
    and leaves the active session binding as it was: the session bound by
    the last [handleSessionCreated] is still bound, and the overlay is no
    longer shown. *)
Theorem closePlayer_keeps_session :
  forall (a : App) (s : MeditationSession),
    currentMode (closePlayer a) = CREATE
    /\ activeSession (closePlayer a) = activeSession a
    /\ activeSession (closePlayer (handleSessionCreated s a)) = Some s
    /\ playerShown (closePlayer a) = None.
Proof.
  intros [m act] s. unfold closePlayer, handleSessionCreated, playerShown.
  cbn. repeat split.
Qed.

End AppFacts.

(* ------------------------------------------------------------------ *)
(** ** Session generator *)

Section GeneratorFacts.

Import Types Generator.

Lemma handleGenerate_unfold svc now w :
  promptGiven w ->
  handleGenerate svc now w
  = snd (catch
           (bind (callPlan svc (prompt w)) (fun plan =>
            bind (setStatus (fun prev =>
                    {| isGeneratingScript := false; isGeneratingImage := true;
                       isGeneratingAudio := true; error := error prev |}))
                 (fun _ =>
            bind (promiseAll
                    (catch (callImage svc (Plan.imagePrompt plan))
                           (fun _ => ret fallbackImage))
                    (catch (callAudio svc (Plan.script plan))
                           (fun e => throw e)))
                 (fun r =>
            bind (setStatus (fun prev =>
                    {| isGeneratingScript := isGeneratingScript prev;
                       isGeneratingImage := false;
                       isGeneratingAudio := false; error := error prev |}))
                 (fun _ =>
            onSessionCreated
              {| id := toString now;
                 title := Plan.title plan;
                 description := Plan.description plan;
                 imagePrompt := Plan.imagePrompt plan;
                 script := Plan.script plan;
                 imageUrl := Some (fst r);
                 audioBuffer := Some (snd r) |})))))
           (fun _ =>
              setStatus (fun _ =>
                {| isGeneratingScript := false; isGeneratingImage := false;
                   isGeneratingAudio := false;
                   error := Some genericError |}))
           {| prompt := prompt w;
              status := {| isGeneratingScript := true;
                           isGeneratingImage := false;
                           isGeneratingAudio := false; error := None |};
              calls := calls w; created := created w |}).
Proof.
  unfold promptGiven, handleGenerate. intros ->. reflexivity.
Qed.

(** C7. When plan generation fails, the only service call of the run is
    the plan request (no image or audio request is issued), no session is
    handed over, and the status is FAILED with the generic message. *)
Theorem plan_failure_stops_pipeline :
  forall svc now w e,
    promptGiven w ->
    generateMeditationPlan svc (prompt w) = inl e ->
    let w' := handleGenerate svc now w in
    calls w' = calls w ++ [PlanCall (prompt w)]
    /\ (forall c, In c (calls w') ->
          In c (calls w) \/ c = PlanCall (prompt w))
    /\ created w' = created w
    /\ FAILED (status w').
Proof.
  intros svc now w e Hp Hplan w'. subst w'.
  rewrite (handleGenerate_unfold svc now w Hp).
  unfold catch, bind, callPlan, issue, settle. cbn. rewrite Hplan. cbn.
  repeat split.
  intros c Hin. apply in_app_or in Hin. destruct Hin as [H | [H | []]]; auto.
Qed.

(** C5. When audio generation fails the run ends FAILED, with the generic
    message and no session handed over, whatever the image request did. *)
Theorem audio_failure_is_fatal :
  forall svc now w plan e,
    promptGiven w ->
    generateMeditationPlan svc (prompt w) = inr plan ->
    generateMeditationAudio svc (Plan.script plan) = inl e ->
    let w' := handleGenerate svc now w in
    FAILED (status w')
    /\ error (status w') = Some genericError
    /\ created w' = created w
    /\ calls w' = calls w ++ [PlanCall (prompt w);
                              ImageCall (Plan.imagePrompt plan);
                              AudioCall (Plan.script plan)].
Proof.
  intros svc now w plan e Hp Hplan Haudio w'. subst w'.
  rewrite (handleGenerate_unfold svc now w Hp).
  unfold catch, bind, promiseAll, callPlan, callImage, callAudio, issue,
    settle. cbn. rewrite Hplan. cbn.
  destruct (generateMeditationImage svc (Plan.imagePrompt plan)) as [ei | url];
    cbn; rewrite Haudio; cbn; rewrite <- !app_assoc; repeat split.
Qed.

(** C6. When the image request fails and the audio request succeeds, the
    run does not fail: exactly one session is handed to the caller, built
    from the plan with the fallback image as [imageUrl] and the decoded
    buffer as [audioBuffer]; nothing is left in flight and no error is
    shown. *)
Theorem image_failure_falls_back :
  forall svc now w plan e buf,
    promptGiven w ->
    generateMeditationPlan svc (prompt w) = inr plan ->
    generateMeditationImage svc (Plan.imagePrompt plan) = inl e ->
    generateMeditationAudio svc (Plan.script plan) = inr buf ->
    let w' := handleGenerate svc now w in
    created w' = created w ++
      [{| id := toString now;
          title := Plan.title plan;
          description := Plan.description plan;
          imagePrompt := Plan.imagePrompt plan;
          script := Plan.script plan;
          imageUrl := Some fallbackImage;
          audioBuffer := Some buf |}]
    /\ status w' = {| isGeneratingScript := false; isGeneratingImage := false;
                      isGeneratingAudio := false; error := None |}
    /\ ~ FAILED (status w').
Proof.
  intros svc now w plan e buf Hp Hplan Himage Haudio w'. subst w'.
  rewrite (handleGenerate_unfold svc now w Hp).
  unfold catch, bind, promiseAll, callPlan, callImage, callAudio, issue,
    settle, onSessionCreated. cbn. rewrite Hplan. cbn.
  rewrite Himage. cbn. rewrite Haudio. cbn.
  repeat split. unfold FAILED. discriminate.
Qed.

Lemma plan_failure_stops_pipeline_witness :
  promptGiven oceanWorld
  /\ FAILED (status (handleGenerate planFails 1700000000000
                      oceanWorld))
  /\ calls (handleGenerate planFails 1700000000000
             oceanWorld)
     = [PlanCall (prompt oceanWorld)].
Proof.
  assert (Hp : promptGiven oceanWorld)
    by (vm_compute; reflexivity).
  destruct (plan_failure_stops_pipeline planFails 1700000000000
              oceanWorld "No plan generated"%string Hp eq_refl)
    as (Hc & _ & _ & Hf).
  split; [exact Hp |]. split; [exact Hf | exact Hc].
Defined.

Lemma audio_failure_is_fatal_witness :
  promptGiven oceanWorld
  /\ FAILED (status (handleGenerate audioFails 1700000000000
                      oceanWorld))
  /\ created (handleGenerate audioFails 1700000000000
               oceanWorld) = [].
Proof.
  assert (Hp : promptGiven oceanWorld)
    by (vm_compute; reflexivity).
  destruct (audio_failure_is_fatal audioFails 1700000000000
              oceanWorld oceanPlan "No audio data received"%string
              Hp eq_refl eq_refl)
    as (Hf & _ & Hc & _).
  split; [exact Hp |]. split; [exact Hf | exact Hc].
Defined.

Lemma image_failure_falls_back_witness :
  promptGiven oceanWorld
  /\ map imageUrl (created (handleGenerate imageFails 1700000000000
                              oceanWorld))
     = [Some fallbackImage]
  /\ map audioBuffer (created (handleGenerate imageFails 1700000000000
                                 oceanWorld))
     = [Some oceanAudio].
Proof.
  assert (Hp : promptGiven oceanWorld)
    by (vm_compute; reflexivity).
  destruct (image_failure_falls_back imageFails 1700000000000
              oceanWorld oceanPlan "Failed to generate image"%string
              oceanAudio Hp eq_refl eq_refl eq_refl)
    as (Hc & _ & _).
  split; [exact Hp |]. rewrite Hc. split; reflexivity.
Defined.

End GeneratorFacts.

(* ------------------------------------------------------------------ *)
(** ** Chat panel *)

Section ChatBotFacts.

Import Types ChatBot.

(** One request at a time: while a request is outstanding, or on a blank
    input, the handler returns at once. *)
Lemma handleSend_start_guard now c :
  isLoading c = true \/ sendable {| typed := input c; sentAt := now;
                                    reply := Resolved None;
                                    settledAt := now |} = false ->
  handleSend_start now c = c.
Proof.
  unfold handleSend_start, sendable. cbn [typed].
  intros [-> | ->]; [now rewrite orb_true_r | reflexivity].
Qed.

Lemma send_appends_exchange c op :
  idle c -> sendable op = true ->
  messages (send c op) = messages c ++ exchange op /\ idle (send c op).
Proof.
  intros [Hl Hi] Hs. unfold sendable in Hs.
  unfold send, handleSend_start, exchange, response, userMessage, idle.
  cbn [input setInput isLoading]. rewrite Hs, Hl.
  cbn [negb orb]. unfold handleSend_finish.
  cbn [inflight setInflight setIsLoading setMessages setInput messages
       isLoading input text].
  destruct (reply op) as [e | [t |]]; cbn.
  - rewrite <- app_assoc. auto.
  - destruct (JsString.truthy t); cbn.
    + rewrite <- app_assoc. auto.
    + auto.
  - auto.
Qed.

Lemma sendAll_appends ops :
  forall c, idle c -> Forall (fun op => sendable op = true) ops ->
    messages (sendAll ops c) = messages c ++ flat_map exchange ops
    /\ idle (sendAll ops c).
Proof.
  induction ops as [| op ops IH]; intros c Hc Hall.
  - cbn. rewrite app_nil_r. auto.
  - inversion Hall as [| ? ? Hop Hrest]; subst.
    destruct (send_appends_exchange c op Hc Hop) as [Hm Hidle].
    destruct (IH (send c op) Hidle Hrest) as [Hm' Hidle'].
    change (sendAll (op :: ops) c) with (sendAll ops (send c op)).
    split; [| exact Hidle'].
    rewrite Hm', Hm. cbn [flat_map]. now rewrite <- app_assoc.
Qed.

Lemma exchange_length op :
  List.length (exchange op) = if answered op then 2 else 1.
Proof.
  unfold exchange, response, answered, truthyText.
  destruct (reply op) as [e | [t |]]; cbn; auto.
  destruct (JsString.truthy t); reflexivity.
Qed.

Lemma flat_map_exchange_length ops :
  List.length (flat_map exchange ops)
  = List.length ops + List.length (filter answered ops).
Proof.
  induction ops as [| op ops IH]; cbn [flat_map filter List.length]; auto.
  rewrite length_app, exchange_length, IH.
  destruct (answered op); cbn [List.length]; lia.
Qed.

Lemma filter_all_length {A} (f : A -> bool) l :
  forallb f l = true -> List.length (filter f l) = List.length l.
Proof.
  induction l as [| a l IH]; cbn; auto.
  intros H. apply andb_true_iff in H as [Ha Hl]. rewrite Ha. cbn. auto.
Qed.

(** C4, amended. After N completed send operations the transcript is the
    greeting followed, in send order, by what each operation added: its
    user message, then the response (the text the service returned, when
    it is not empty, or the connectivity-failure message when the call
    failed).  Its length is 1 + N + the number of operations that were
    answered with a non-empty text or failed; it is 1 + 2N when every one
    of them was. *)
Theorem transcript_after_sends :
  forall (t0 : N) (ops : list SendOp),
    Forall (fun op => sendable op = true) ops ->
    let c := sendAll ops (initial t0) in
    messages c
    = {| role := model; text := greeting; timestamp := t0 |}
      :: flat_map exchange ops
    /\ List.length (messages c)
       = 1 + List.length ops + List.length (filter answered ops)
    /\ (forallb answered ops = true ->
        List.length (messages c) = 1 + 2 * List.length ops)
    /\ isLoading c = false.
Proof.
  intros t0 ops Hall c.
  assert (Hidle : idle (initial t0)) by (split; reflexivity).
  destruct (sendAll_appends ops (initial t0) Hidle Hall) as [Hm [Hl _]].
  fold c in Hm, Hl. cbn in Hm.
  assert (Hlen : List.length (messages c)
                 = 1 + List.length ops + List.length (filter answered ops)).
  { rewrite Hm. cbn [List.length]. rewrite flat_map_exchange_length. lia. }
  repeat split; auto.
  intros Hans. rewrite Hlen, (filter_all_length _ _ Hans). lia.
Qed.

Lemma transcript_after_sends_witness :
  Forall (fun op => sendable op = true) sampleOps
  /\ List.length (messages (sendAll sampleOps (initial 0))) = 5.
Proof.
  assert (H : Forall (fun op => sendable op = true) sampleOps)
    by (repeat constructor).
  split; [exact H |].
  exact (proj1 (proj2 (transcript_after_sends 0 sampleOps H))).
Defined.

(** C4 as stated fails: one completed send to which the service returned
    no text leaves two messages in the transcript, not three. *)
Lemma empty_reply_breaks_pairing :
  let op := {| typed := "hello"%string; sentAt := 1;
               reply := Resolved None; settledAt := 2 |} in
  sendable op = true
  /\ isLoading (sendAll [op] (initial 0)) = false
  /\ List.length (messages (sendAll [op] (initial 0))) = 2
  /\ List.length (messages (sendAll [op] (initial 0))) <> 1 + 2 * 1.
Proof.
  cbv zeta. repeat split. cbn. discriminate.
Qed.

End ChatBotFacts.

(* ------------------------------------------------------------------ *)
(** ** Media player: the handlers *)

Section HandlerFacts.

Import Types JsString MediaPlayer VoiceSpec.
Local Open Scope string_scope.

Lemma runEffects_same p : runEffects p p = p.
Proof.
  unfold runEffects, changed. rewrite !Bool.eqb_reflx. reflexivity.
Qed.

(** C10. When the session has no audio buffer, or the audio context or
    the gain node is missing, [playAudio] returns the player as it is: no
    source is started and nothing changes.  So a player mounted on a session
    without audio is not playing, has started no source, shows progress 0,
    holds pause offset 0 and has no progress loop; and a click on play
    leaves it so. *)
Theorem playAudio_without_audio_is_inert :
  forall p s ctx0 playable supported,
    (audioContextRef (refs p) = None \/ audioBuffer (session p) = None
     \/ gainNodeRef (refs p) = None ->
     playAudio p = p)
    /\ (audioBuffer s = None ->
        let m := mount s ctx0 playable supported in
        isPlaying (state m) = false
        /\ sources (refs m) = []
        /\ progress (state m) = 0%Q
        /\ pauseTimeRef (refs m) = 0%Q
        /\ rafQueue (platform m) = []
        /\ step ClickPlay m = m).
Proof.
  intros p s ctx0 playable supported. split.
  - intros H. unfold playAudio.
    destruct (audioContextRef (refs p)) as [c |]; [| reflexivity].
    destruct (audioBuffer (session p)) as [b |]; [| reflexivity].
    destruct (gainNodeRef (refs p)) as [g |]; [| reflexivity].
    destruct H as [H | [H | H]]; discriminate.
  - intros Hs m. subst m.
    destruct s as [i t d ip sc iu ab]. cbn in Hs. subst ab.
    destruct supported, playable, ctx0; vm_compute; repeat split.
Qed.

Lemma playAudio_without_audio_is_inert_witness :
  audioBuffer (session silentPlayer) = None
  /\ playAudio silentPlayer = silentPlayer.
Proof.
  split; [vm_compute; reflexivity |].
  apply (proj1 (playAudio_without_audio_is_inert
                  silentPlayer silentSession running true true)).
  right. left. vm_compute. reflexivity.
Defined.

Lemma onerror_inactive err p : onerror false err p = p.
Proof.
  unfold onerror. destruct (_ || _); [reflexivity |].
  destruct (_ || _); reflexivity.
Qed.

Lemma onerror_cases active err p :
  onerror active err p = p
  \/ (active = true
      /\ (err = "not-allowed" \/ err = "service-not-allowed")
      /\ onerror active err p = setIsListening false p).
Proof.
  unfold onerror. destruct (_ || _); [now left |].
  destruct (String.eqb err "not-allowed") eqn:E1.
  - apply String.eqb_eq in E1. destruct active; [right | left]; auto.
  - destruct (String.eqb err "service-not-allowed") eqn:E2; [| now left].
    apply String.eqb_eq in E2. destruct active; [right | left]; auto.
Qed.

Lemma step_setIsListening_false p :
  playback (runEffects p (setIsListening false p)) = playback p
  /\ refs (runEffects p (setIsListening false p)) = refs p
  /\ isListening (state (runEffects p (setIsListening false p))) = false.
Proof.
  unfold runEffects, changed, playback, speechEffect. cbn.
  rewrite !Bool.eqb_reflx. cbn.
  destruct (negb _); [destruct (speechSupported _) |]; repeat split.
Qed.

(** C8, amended. An error of category no-speech or aborted leaves the
    player unchanged; a permission error (not-allowed,
    service-not-allowed) sets the listening flag to false when the handler
    belongs to the effect instance that is still active, and leaves the
    player unchanged when it belongs to an instance already cleaned up;
    every other error leaves the player unchanged.  In no case do the
    play/pause, mute, ambient or progress cells, the refs or the session
    change, also after the render that follows. *)
Theorem onerror_effect :
  forall (active : bool) (err : string) (p : Player),
    (err = "no-speech" \/ err = "aborted" -> onerror active err p = p)
    /\ (err = "not-allowed" \/ err = "service-not-allowed" ->
        onerror true err p = setIsListening false p
        /\ isListening (state (onerror true err p)) = false
        /\ onerror false err p = p)
    /\ (err <> "no-speech" -> err <> "aborted" -> err <> "not-allowed" ->
        err <> "service-not-allowed" -> onerror active err p = p)
    /\ playback (onerror active err p) = playback p
    /\ refs (onerror active err p) = refs p
    /\ session (onerror active err p) = session p
    /\ (forall i,
          playback (step (SpeechError i err) p) = playback p
          /\ refs (step (SpeechError i err) p) = refs p
          /\ (instanceExists i p = true -> isEffectActive i p = true ->
              err = "not-allowed" \/ err = "service-not-allowed" ->
              isListening (state (step (SpeechError i err) p)) = false)
          /\ (isEffectActive i p = false ->
              step (SpeechError i err) p = p)).
Proof.
  intros active err p.
  assert (Hperm : err = "not-allowed" \/ err = "service-not-allowed" ->
                  onerror true err p = setIsListening false p).
  { intros [-> | ->]; reflexivity. }
  split; [intros [-> | ->]; reflexivity |].
  split; [intros H; rewrite (Hperm H); repeat split;
          apply onerror_inactive |].
  split.
  { intros H1 H2 H3 H4. unfold onerror.
    apply String.eqb_neq in H1, H2, H3, H4. now rewrite H1, H2, H3, H4. }
  assert (Hframe : playback (onerror active err p) = playback p
                   /\ refs (onerror active err p) = refs p
                   /\ session (onerror active err p) = session p).
  { destruct (onerror_cases active err p) as [-> | (_ & _ & ->)];
      repeat split. }
  destruct Hframe as (F1 & F2 & F3).
  split; [exact F1 |]. split; [exact F2 |]. split; [exact F3 |].
  intros i. unfold step, handler.
  destruct (step_setIsListening_false p) as (S1 & S2 & S3).
  destruct (instanceExists i p).
  - destruct (onerror_cases (isEffectActive i p) err p)
      as [E | (Ha & He & E)]; rewrite E.
    + rewrite runEffects_same. repeat split.
      intros _ Hact Hp. rewrite Hact, (Hperm Hp) in E.
      rewrite <- E at 1. reflexivity.
    + split; [exact S1 |]. split; [exact S2 |]. split; [auto |].
      intros Hact. congruence.
  - rewrite runEffects_same. repeat split. discriminate.
Qed.

(** C8 as stated fails.  Listening is switched on, off and on again; the
    permission error then reaches the handler of the first recognition
    instance, whose effect was cleaned up: the listening flag stays true. *)
Lemma stale_permission_error_keeps_listening :
  let p := run [ClickVoice; ClickVoice; ClickVoice] demoPlayer in
  reachable p
  /\ isListening (state p) = true
  /\ instanceExists 2 p = true
  /\ isEffectActive 2 p = false
  /\ isListening (state (step (SpeechError 2 "not-allowed") p)) = true.
Proof.
  cbv zeta. split.
  - unfold run. cbn [fold_left]. repeat apply reach_step. apply reach_mount.
  - vm_compute. repeat split.
Qed.

(** *** The voice dispatcher *)

Lemma includes_cons s sub a :
  includes s sub = true -> includes (String a s) sub = true.
Proof.
  intros H. cbn [includes]. rewrite H. apply orb_true_r.
Qed.

(** Every utterance that contains "unmute" contains "mute": the first
    keyword of the unmute set never decides a dispatch, the mute set
    has matched before. *)
Lemma unmute_contains_mute s :
  includes s "unmute" = true -> includes s "mute" = true.
Proof.
  induction s as [| a s IH]; [discriminate |].
  cbn [includes]. intros H. apply orb_true_iff in H as [H | H].
  - destruct s as [| b [| c [| d [| e [| f s]]]]]; cbn in H;
      repeat match type of H with
             | (if ?x then _ else _) = true =>
                 destruct x; [| discriminate]
             end; try discriminate.
    subst. apply orb_true_iff. right. apply includes_cons.
    cbn. rewrite H. reflexivity.
  - rewrite (IH H). apply orb_true_r.
Qed.

(** The command recognized is the one of the first set that matches. *)
Lemma recognize_first_match command c :
  recognize command = Some c
  <-> matches command c = true
      /\ forall c', rank c' < rank c -> matches command c' = false.
Proof.
  unfold recognize. cbn [find priority].
  destruct (matches command Pause) eqn:E1, (matches command Play) eqn:E2,
    (matches command Mute) eqn:E3, (matches command Unmute) eqn:E4,
    (matches command AmbientOn) eqn:E5, (matches command AmbientOff) eqn:E6;
    (split;
     [ intros H; injection H as <-; split;
       [assumption | intros [| | | | |] Hr; cbn in Hr; try lia; assumption]
     | intros [Hm Hlt]; destruct c; try congruence;
       first [ specialize (Hlt Pause ltac:(cbn; lia)); congruence
             | specialize (Hlt Play ltac:(cbn; lia)); congruence
             | specialize (Hlt Mute ltac:(cbn; lia)); congruence
             | specialize (Hlt Unmute ltac:(cbn; lia)); congruence
             | specialize (Hlt AmbientOn ltac:(cbn; lia)); congruence ] ])
    || (split; [discriminate | intros [Hm _]; destruct c; congruence]).
Qed.

Lemma onresult_dispatch transcript p :
  synced p -> onresult transcript p = dispatch transcript p.
Proof.
  intros (Hp & Hm & Ha). unfold onresult, dispatch, recognize.
  cbn [find priority matches keywords existsb fires perform].
  rewrite !orb_false_r, !orb_assoc, Hp, Hm, Ha.
  repeat match goal with
         | |- context [if ?b then _ else _] =>
             lazymatch b with
             | context [includes] => destruct b
             end
         end; reflexivity.
Qed.

(** C1, amended. The dispatcher acts on the first keyword set, in the
    order pause, play, mute, unmute, ambient-on, ambient-off, that the
    lower-cased, trimmed utterance matches, and the command fires only in
    its state: pause only if playing, play only if not playing, mute only
    if unmuted, unmute only if muted, ambient-on only if ambient is off,
    ambient-off only if ambient is on.  When the command of that first
    matching set names the state the player is already in, or when no set
    matches, the utterance is a no-op: the player is left exactly as it
    was, also after the render that follows. *)
Theorem voice_dispatch_priority :
  forall (transcript : string) (p : Player),
    synced p ->
    let command := trim (toLowerCase transcript) in
    onresult transcript p = dispatch transcript p
    /\ (forall c, recognize command = Some c
                  <-> matches command c = true
                      /\ forall c', rank c' < rank c ->
                                    matches command c' = false)
    /\ (forall c, recognize command = Some c ->
          onresult transcript p = if fires c p then perform c p else p)
    /\ (forall c, recognize command = Some c -> fires c p = false ->
          onresult transcript p = p
          /\ forall i, step (SpeechResult i transcript) p = p)
    /\ (recognize command = None ->
          onresult transcript p = p
          /\ forall i, step (SpeechResult i transcript) p = p).
Proof.
  intros transcript p Hs command.
  pose proof (onresult_dispatch transcript p Hs) as Hd.
  assert (Hstep : onresult transcript p = p ->
                  forall i, step (SpeechResult i transcript) p = p).
  { intros Hno i. unfold step, handler.
    destruct (instanceExists i p); rewrite ?Hno; apply runEffects_same. }
  split; [exact Hd |]. unfold dispatch in Hd. fold command in Hd.
  split; [intros c; apply recognize_first_match |].
  split; [intros c Hc; now rewrite Hd, Hc |].
  split.
  - intros c Hc Hf.
    assert (Hno : onresult transcript p = p) by now rewrite Hd, Hc, Hf.
    split; [exact Hno | exact (Hstep Hno)].
  - intros Hnone.
    assert (Hno : onresult transcript p = p) by now rewrite Hd, Hnone.
    split; [exact Hno | exact (Hstep Hno)].
Qed.

Lemma voice_dispatch_priority_witness :
  synced mutedPlayer
  /\ recognize (trim (toLowerCase "Mute the sound")) = Some Mute
  /\ fires Mute mutedPlayer = false
  /\ onresult "Mute the sound" mutedPlayer = mutedPlayer.
Proof.
  assert (Hs : synced mutedPlayer) by (vm_compute; repeat split).
  split; [exact Hs |].
  split; [vm_compute; reflexivity |]. split; [vm_compute; reflexivity |].
  exact (proj1 (proj1 (proj2 (proj2 (proj2
           (voice_dispatch_priority "Mute the sound" mutedPlayer Hs))))
           Mute eq_refl eq_refl)).
Defined.

(** C1 as stated fails at its own example.  The player is muted and the
    utterance is the unmute keyword "sound": the unmute command fires and
    the mute flag changes. *)
Lemma unmute_keyword_while_muted_fires :
  reachable mutedPlayer
  /\ synced mutedPlayer
  /\ isMuted (state mutedPlayer) = true
  /\ In "sound" (keywords Unmute)
  /\ recognize (trim (toLowerCase "sound")) = Some Unmute
  /\ isMuted (state (onresult "sound" mutedPlayer)) = false
  /\ onresult "sound" mutedPlayer <> mutedPlayer
  /\ step (SpeechResult 1 "sound") mutedPlayer <> mutedPlayer.
Proof.
  split; [apply reach_step, reach_mount |].
  split; [vm_compute; repeat split |]. split; [vm_compute; reflexivity |].
  split; [cbn; auto |]. split; [vm_compute; reflexivity |].
  split; [vm_compute; reflexivity |].
  split; intros H; apply (f_equal (fun q => isMuted (state q))) in H;
    vm_compute in H; discriminate.
Qed.

(** The word "unmute" itself is taken by the mute set: said to an unmuted
    player it mutes, said to a muted player it does nothing. *)
Lemma unmute_word_is_read_as_mute :
  recognize (trim (toLowerCase "unmute")) = Some Mute
  /\ isMuted (state demoPlayer) = false
  /\ isMuted (state (onresult "unmute" demoPlayer)) = true
  /\ isMuted (state mutedPlayer) = true
  /\ onresult "unmute" mutedPlayer = mutedPlayer.
Proof. vm_compute. repeat split. Qed.

End HandlerFacts.

(* ------------------------------------------------------------------ *)
(** ** Media player: the reachable states *)

Section InvariantFacts.

Import Types JsString MediaPlayer VoiceSpec.
Local Open Scope Q_scope.

Lemma durationOr1_pos s : 0 < durationOr1 s.
Proof.
  unfold durationOr1. destruct (audioBuffer s) as [b |]; [| reflexivity].
  destruct (Qeq_bool (duration b) 0); [reflexivity |].
  unfold duration, Qlt. cbn. lia.
Qed.

Lemma percent_nonneg d s t : 0 < d -> s <= t -> 0 <= ((t - s) / d) * 100.
Proof.
  intros Hd Hst. apply Qmult_le_0_compat; [| discriminate].
  unfold Qdiv. apply Qmult_le_0_compat; [lra |].
  apply Qlt_le_weak, Qinv_lt_0_compat, Hd.
Qed.

Lemma percent_mono d s t t' :
  0 < d -> t <= t' -> ((t - s) / d) * 100 <= ((t' - s) / d) * 100.
Proof.
  intros Hd Htt. apply Qmult_le_compat_r; [| discriminate].
  unfold Qdiv. apply Qmult_le_compat_r; [lra |].
  apply Qlt_le_weak, Qinv_lt_0_compat, Hd.
Qed.

Lemma Qle_bool_false x y : Qle_bool x y = false -> y < x.
Proof.
  intros H. apply Qnot_le_lt. intros Hle.
  apply Qle_bool_iff in Hle. congruence.
Qed.

Ltac break_ifs :=
  repeat match goal with
         | |- context [if ?b then _ else _] => destruct b
         | |- context [match ?x with Some _ => _ | None => _ end] => destruct x
         end.

Lemma runEffects_core prev next : core (runEffects prev next) = core next.
Proof.
  unfold runEffects, syncAmbient, ambientPlay, ambientPause, speechEffect.
  break_ifs; reflexivity.
Qed.




Lemma runEffects_state prev next : state (runEffects prev next) = state next.
Proof.
  pose proof (runEffects_core prev next) as H. unfold core in H.
  now inversion H.
Qed.

Lemma runEffects_shadowRefs prev next :
  isPlayingRef (refs (runEffects prev next))
  = (if changed isPlaying prev next then isPlaying (state next)
     else isPlayingRef (refs next))
  /\ isMutedRef (refs (runEffects prev next))
     = (if changed isMuted prev next then isMuted (state next)
        else isMutedRef (refs next))
  /\ isAmbientOnRef (refs (runEffects prev next))
     = (if changed isAmbientOn prev next then isAmbientOn (state next)
        else isAmbientOnRef (refs next)).
Proof.
  unfold runEffects, syncAmbient, ambientPlay, ambientPause, speechEffect.
  repeat split; break_ifs; reflexivity.
Qed.

Lemma runEffects_ambient prev next :
  (ambientAudioRef (refs (runEffects prev next)),
   ambientPlayFailed (platform (runEffects prev next)))
  = if changed isPlaying prev next || changed isAmbientOn prev next then
      match ambientAudioRef (refs next) with
      | None => (None, ambientPlayFailed (platform next))
      | Some a =>
          if isPlaying (state next) && isAmbientOn (state next) then
            if ambientPlayable (platform next)
            then (Some (setPaused false a), false)
            else (Some a, true)
          else (Some (setPaused true a), false)
      end
    else (ambientAudioRef (refs next), ambientPlayFailed (platform next)).
Proof.
  destruct next as [s2 [ip2 im2 ia2 pr2 il2]
                       [ac2 so2 gn2 am2 st2 pt2 af2 ipr2 imr2 iar2]
                       [rq2 rn2 apl2 apf2 ss2 re2]].
  unfold runEffects, syncAmbient, ambientPlay, ambientPause, speechEffect.
  destruct (changed isPlaying prev _), (changed isMuted prev _),
    (changed isAmbientOn prev _), (changed isListening prev _);
    cbn; break_ifs; reflexivity.
Qed.

Lemma runEffects_shadow_inv prev next :
  synced prev -> ambientInv prev -> shadow next = shadow prev ->
  synced (runEffects prev next) /\ ambientInv (runEffects prev next).
Proof.
  intros (Hp & Hm & Ha) ((a & Hamb) & Haud & Hfail) Hsh.
  unfold shadow in Hsh. inversion Hsh as [[Hs1 Hs2 Hs3 Hs4 Hs5]]. clear Hsh.
  pose proof (runEffects_state prev next) as Hst.
  destruct (runEffects_shadowRefs prev next) as (R1 & R2 & R3).
  pose proof (runEffects_ambient prev next) as RA.
  unfold synced, ambientInv, ambientAudible in *.
  rewrite Hst, R1, R2, R3.
  rewrite Hs4, Hs5, Hamb in RA. rewrite Hamb in Haud.
  rewrite Hs1, Hs2, Hs3, Hp, Hm, Ha.
  unfold changed in *.
  destruct (ambientAudioRef (refs (runEffects prev next))) as [a' |] eqn:Ea;
  destruct (ambientPlayFailed (platform (runEffects prev next))) eqn:Ef;
  destruct a as [lp vol pa]; cbn in Haud;
  destruct (isPlaying (state prev)), (isPlaying (state next)),
    (isAmbientOn (state prev)), (isAmbientOn (state next)),
    (isMuted (state prev)), (isMuted (state next)),
    (ambientPlayable (platform next)),
    (ambientPlayFailed (platform prev)), pa;
    cbn in *; try discriminate; try (specialize (Hfail eq_refl));
    try discriminate; inversion RA; subst; cbn;
    repeat split; eauto; intros; discriminate.
Qed.


(** *** What the handlers leave alone *)

Lemma updateProgress_shadow p : shadow (updateProgress p) = shadow p.
Proof.
  unfold updateProgress, requestAnimationFrame.
  destruct (audioContextRef (refs p)); [| reflexivity].
  destruct (Qle_bool _ _); reflexivity.
Qed.

Lemma playAudio_shadow p : shadow (playAudio p) = shadow p.
Proof.
  unfold playAudio.
  destruct (audioContextRef (refs p)); [| reflexivity].
  destruct (audioBuffer (session p)); [| reflexivity].
  destruct (gainNodeRef (refs p)); [| reflexivity].
  now rewrite updateProgress_shadow.
Qed.

Lemma pauseAudio_shadow p : shadow (pauseAudio p) = shadow p.
Proof.
  unfold pauseAudio, cancelAnimationFrame.
  destruct (sources (refs p)); [reflexivity |].
  destruct (audioContextRef (refs p)); [| reflexivity].
  cbn. destruct (_ =? _)%nat; reflexivity.
Qed.

Lemma toggleMute_shadow p : shadow (toggleMute p) = shadow p.
Proof.
  unfold toggleMute. destruct (gainNodeRef (refs p)); reflexivity.
Qed.

Lemma onresult_shadow t p : shadow (onresult t p) = shadow p.
Proof.
  unfold onresult.
  repeat match goal with
         | |- context [if ?b then _ else _] => destruct b
         end;
    auto using playAudio_shadow, pauseAudio_shadow, toggleMute_shadow.
Qed.

Lemma onerror_shadow a e p : shadow (onerror a e p) = shadow p.
Proof.
  unfold onerror.
  repeat match goal with
         | |- context [if ?b then _ else _] => destruct b
         end; reflexivity.
Qed.

Lemma fold_updateProgress_shadow (l : list nat) :
  forall q, shadow (fold_left (fun q _ => updateProgress q) l q) = shadow q.
Proof.
  induction l as [| h l IH]; intros q; cbn [fold_left]; [reflexivity |].
  now rewrite IH, updateProgress_shadow.
Qed.

Lemma handler_shadow ev p : shadow (handler ev p) = shadow p.
Proof.
  destruct ev; cbn [handler].
  - unfold togglePlay. destruct (isPlaying (state p));
      auto using playAudio_shadow, pauseAudio_shadow.
  - apply toggleMute_shadow.
  - reflexivity.
  - reflexivity.
  - destruct (instanceExists _ _); auto using onresult_shadow.
  - destruct (instanceExists _ _); auto using onerror_shadow.
  - unfold runFrame. now rewrite fold_updateProgress_shadow.
  - unfold advance. destruct (audioContextRef (refs p)); reflexivity.
  - reflexivity.
Qed.


(** *** The loop invariant *)

Lemma loopInv_ext p q : loopCore q = loopCore p -> loopInv p -> loopInv q.
Proof.
  unfold loopCore, loopInv, percentAt. intros H.
  inversion H as [[E1 E2 E3 E4 E5 E6 E7 E8 E9 E10]].
  rewrite E1, E2, E3, E4, E5, E6, E7, E8, E9, E10. auto.
Qed.

Lemma loopCore_fields p q :
  loopCore q = loopCore p ->
  isPlaying (state q) = isPlaying (state p)
  /\ progress (state q) = progress (state p)
  /\ pauseTimeRef (refs q) = pauseTimeRef (refs p)
  /\ rafQueue (platform q) = rafQueue (platform p)
  /\ sources (refs q) = sources (refs p)
  /\ session q = session p.
Proof.
  unfold loopCore. intros H.
  inversion H as [[E1 E2 E3 E4 E5 E6 E7 E8 E9 E10]]. auto 7.
Qed.

Lemma core_loopCore p q : core q = core p -> loopCore q = loopCore p.
Proof.
  unfold core, loopCore. intros H.
  inversion H as [[E1 E2 E3 E4 E5 E6 E7 E8 E9 E10 E11 E12]].
  now rewrite E1, E2, E3, E4, E6, E7, E8, E9, E10.
Qed.

Ltac qcbn :=
  cbn -[Qle Qlt Qminus Qdiv Qmult Qplus Qinv Qle_bool Qeq_bool durationOr1
        Nat.eqb] in *.

Ltac open_player p :=
  destruct p as [sess [ip im ia pr il]
                      [ac so gn am st pt af ipr imr iar]
                      [rq rn apl apf ss re]].

Lemma pauseAudio_loopInv p : loopInv p -> loopInv (pauseAudio p).
Proof.
  open_player p. unfold loopInv, percentAt, pauseAudio, cancelAnimationFrame.
  qcbn. intros (H1 & H2 & H3 & H4 & H5 & H6).
  destruct so as [| src rest]; [qcbn; tauto |].
  destruct ac as [c |]; [| qcbn; tauto].
  assert (Hq : (if (af =? 0)%nat then rq
                else filter (fun k => negb (k =? af)%nat) rq) = []).
  { destruct ip.
    - destruct (H5 eq_refl) as (c0 & s0 & r0 & _ & _ & Haf & Hrq & _).
      apply Nat.eqb_neq in Haf. rewrite Haf, Hrq. cbn.
      now rewrite Nat.eqb_refl.
    - rewrite (H6 eq_refl). now destruct (af =? 0)%nat. }
  destruct (af =? 0)%nat; qcbn;
    (split; [exact H1 |]; split; [specialize (H4 c eq_refl); lra |];
     split; [exact H3 |]; split; [exact H4 |];
     split; [discriminate | intros _; exact Hq]).
Qed.

Lemma ctx_resume_time c :
  currentTime (match ctxState c with suspended => resume c | _ => c end)
  = currentTime c.
Proof. now destruct (ctxState c). Qed.

Lemma playAudio_loopInv p :
  loopInv p -> isPlaying (state p) = false -> loopInv (playAudio p).
Proof.
  open_player p. unfold loopInv, percentAt, playAudio, updateProgress,
    requestAnimationFrame.
  qcbn. intros (H1 & H2 & H3 & H4 & H5 & H6) Hip. subst ip.
  specialize (H6 eq_refl). subst rq.
  destruct ac as [c |]; [| qcbn; repeat split; auto; lra].
  destruct (audioBuffer sess) as [b |] eqn:Eb;
    [| qcbn; repeat split; auto; lra].
  destruct gn as [g |]; [| qcbn; repeat split; auto; lra].
  qcbn. rewrite !ctx_resume_time.
  pose proof (durationOr1_pos sess) as Hd.
  destruct (Qle_bool _ _) eqn:E; qcbn; rewrite ?ctx_resume_time.
  - split; [exact H1 |]. split; [lra |]. split; [lra |].
    split; [intros c0 Hc0; inversion Hc0; subst; rewrite ctx_resume_time; lra |].
    split; [discriminate | reflexivity].
  - apply Qle_bool_false in E.
    assert (Hnn : 0 <= (currentTime c - (currentTime c - pt))
                       / durationOr1 sess * 100)
      by (apply percent_nonneg; [exact Hd | lra]).
    split; [lia |]. split; [exact H2 |]. split; [lra |].
    split; [intros c0 Hc0; inversion Hc0; subst; rewrite ctx_resume_time; lra |].
    split; [| discriminate]. intros _.
    eexists _, _, _. split; [reflexivity |]. split; [reflexivity |].
    split; [lia |]. split; [reflexivity |].
    rewrite ctx_resume_time. lra.
Qed.


(** The effect of one frame on a player that satisfies the loop
    invariant. *)
Lemma runFrame_cases p :
  loopInv p ->
  (isPlaying (state p) = false
   /\ runFrame p = set_rafQueue [] p /\ rafQueue (platform p) = [])
  \/ (isPlaying (state p) = true
      /\ runFrame p = updateProgress (set_rafQueue [] p)).
Proof.
  intros (H1 & H2 & H3 & H4 & H5 & H6). unfold runFrame.
  destruct (isPlaying (state p)).
  - right. destruct (H5 eq_refl) as (c & s0 & r0 & _ & _ & _ & Hrq & _).
    rewrite Hrq. split; reflexivity.
  - left. rewrite (H6 eq_refl). repeat split.
Qed.

Lemma tick_loopInv p :
  loopInv p -> isPlaying (state p) = true ->
  loopInv (updateProgress (set_rafQueue [] p)).
Proof.
  open_player p. unfold loopInv, percentAt, updateProgress,
    requestAnimationFrame.
  qcbn. intros (H1 & H2 & H3 & H4 & H5 & H6) Hip. subst ip.
  destruct (H5 eq_refl) as (c & s0 & r0 & Hc & Hso & Haf & Hrq & Hpr).
  subst ac so rq. qcbn. specialize (H4 c eq_refl).
  pose proof (durationOr1_pos sess) as Hd.
  destruct (Qle_bool _ _) eqn:E; qcbn.
  - split; [exact H1 |]. split; [lra |]. split; [lra |].
    split; [intros c0 Hc0; inversion Hc0; subst; exact H4 |].
    split; [discriminate | reflexivity].
  - apply Qle_bool_false in E.
    assert (Hnn : 0 <= (currentTime c - st) / durationOr1 sess * 100)
      by (apply percent_nonneg; [exact Hd | lra]).
    split; [lia |]. split; [exact H2 |]. split; [lra |].
    split; [intros c0 Hc0; inversion Hc0; subst; exact H4 |].
    split; [| discriminate]. intros _.
    eexists _, _, _. split; [reflexivity |]. split; [reflexivity |].
    split; [lia |]. split; [reflexivity |]. lra.
Qed.

Lemma runFrame_loopInv p : loopInv p -> loopInv (runFrame p).
Proof.
  intros H. destruct (runFrame_cases p H) as [(Hip & -> & Hrq) | (Hip & ->)].
  - apply (loopInv_ext p); [| exact H].
    unfold loopCore. cbn. now rewrite Hrq.
  - now apply tick_loopInv.
Qed.

Lemma advance_loopInv n p : loopInv p -> loopInv (advance n p).
Proof.
  open_player p. unfold loopInv, percentAt, advance.
  qcbn. intros (H1 & H2 & H3 & H4 & H5 & H6).
  destruct ac as [c |]; [| qcbn; tauto]. qcbn.
  assert (Hn : 0 <= Z.of_N n # contextSampleRate)
    by (unfold Qle; cbn; lia).
  specialize (H4 c eq_refl).
  split; [exact H1 |]. split; [exact H2 |]. split; [exact H3 |].
  split; [intros c0 Hc0; inversion Hc0; subst; qcbn; lra |].
  split; [| exact H6]. intros Hip.
  destruct (H5 Hip) as (c1 & s0 & r0 & Hc & Hso & Haf & Hrq & Hpr).
  inversion Hc; subst c1.
  eexists _, s0, r0. split; [reflexivity |]. repeat split; auto. qcbn.
  eapply Qle_trans; [exact Hpr |].
  apply percent_mono; [apply durationOr1_pos | lra].
Qed.

Lemma toggleMute_loopCore p : loopCore (toggleMute p) = loopCore p.
Proof. unfold toggleMute. destruct (gainNodeRef (refs p)); reflexivity. Qed.

Lemma onerror_loopCore a e p : loopCore (onerror a e p) = loopCore p.
Proof.
  unfold onerror.
  repeat match goal with
         | |- context [if ?b then _ else _] => destruct b
         end; reflexivity.
Qed.

Lemma onresult_loopInv t p : synced p -> loopInv p -> loopInv (onresult t p).
Proof.
  intros (Hp & _ & _) H. unfold onresult. rewrite Hp.
  repeat match goal with
         | |- context [if ?b then _ else _] => destruct b eqn:?
         end;
    auto using pauseAudio_loopInv;
    try (apply playAudio_loopInv; [exact H |];
         match goal with E : negb _ = true |- _ =>
           now apply negb_true_iff in E end);
    try (apply (loopInv_ext p); [| exact H]; try apply toggleMute_loopCore;
         reflexivity).
Qed.

Lemma handler_loopInv ev p :
  synced p -> loopInv p -> loopInv (handler ev p).
Proof.
  intros Hs H. destruct ev; cbn [handler].
  - unfold togglePlay. destruct (isPlaying (state p)) eqn:E.
    + now apply pauseAudio_loopInv.
    + now apply playAudio_loopInv.
  - apply (loopInv_ext p); [apply toggleMute_loopCore | exact H].
  - apply (loopInv_ext p); [reflexivity | exact H].
  - apply (loopInv_ext p); [reflexivity | exact H].
  - destruct (instanceExists _ _); [now apply onresult_loopInv | exact H].
  - destruct (instanceExists _ _); [| exact H].
    apply (loopInv_ext p); [apply onerror_loopCore | exact H].
  - now apply runFrame_loopInv.
  - now apply advance_loopInv.
  - apply (loopInv_ext p); [reflexivity | exact H].
Qed.

Lemma step_Inv ev p : Inv p -> Inv (step ev p).
Proof.
  intros (Hs & Ha & Hl). unfold step.
  destruct (runEffects_shadow_inv p (handler ev p) Hs Ha (handler_shadow ev p))
    as [Hs' Ha'].
  split; [exact Hs' |]. split; [exact Ha' |].
  apply (loopInv_ext (handler ev p)).
  - apply core_loopCore, runEffects_core.
  - now apply handler_loopInv.
Qed.

Lemma mount_Inv s ctx0 playable supported :
  Inv (mount s ctx0 playable supported).
Proof.
  unfold mount.
  set (p0 := initialRender s playable supported).
  assert (Hm : loopInv (mountEffects ctx0 p0)).
  { unfold mountEffects.
    set (q := set_gainNodeRef _ _).
    assert (Hq : loopInv q).
    { subst q p0. unfold loopInv, percentAt, syncAmbient, ambientPause.
      qcbn. split; [lia |]. split; [lra |]. split; [lra |].
      split; [intros c Hc; inversion Hc; subst; qcbn; lra |].
      split; [discriminate | reflexivity]. }
    assert (Hip : isPlaying (state q) = false) by reflexivity.
    pose proof (playAudio_loopInv q Hq Hip) as Hpl.
    apply (loopInv_ext (playAudio q)); [| exact Hpl].
    unfold speechEffect. destruct (speechSupported _); reflexivity. }
  split; [| split].
  - subst p0. destruct s as [i t d ip sc iu [[l r] |]];
      destruct ctx0, playable, supported; vm_compute; repeat split.
  - subst p0. unfold ambientInv, ambientAudible.
    destruct s as [i t d ip sc iu [[l r] |]];
      destruct ctx0, playable, supported; vm_compute;
      (split; [eexists; reflexivity |]); split;
      solve [reflexivity | discriminate].
  - apply (loopInv_ext (mountEffects ctx0 p0)); [| exact Hm].
    apply core_loopCore, runEffects_core.
Qed.

Lemma reachable_Inv p : reachable p -> Inv p.
Proof.
  induction 1 as [s ctx0 playable supported | ev p _ IH].
  - apply mount_Inv.
  - now apply step_Inv.
Qed.

(** In particular the speech callbacks read the current state through the
    shadow refs in every reachable state. *)
Lemma reachable_synced p : reachable p -> synced p.
Proof. intros H. apply (reachable_Inv p H). Qed.


(** *** Progress *)

Lemma pauseAudio_effect p c src rest :
  audioContextRef (refs p) = Some c ->
  sources (refs p) = src :: rest ->
  isPlaying (state (pauseAudio p)) = false
  /\ progress (state (pauseAudio p)) = progress (state p)
  /\ pauseTimeRef (refs (pauseAudio p))
     = currentTime c - startTimeRef (refs p)
  /\ sources (refs (pauseAudio p)) = stop src :: rest
  /\ startTimeRef (refs (pauseAudio p)) = startTimeRef (refs p)
  /\ session (pauseAudio p) = session p.
Proof.
  intros Hc Hs. unfold pauseAudio, cancelAnimationFrame. rewrite Hc, Hs.
  qcbn. destruct (_ =? _)%nat; repeat split.
Qed.

Lemma pauseAudio_progress p :
  progress (state (pauseAudio p)) = progress (state p).
Proof.
  unfold pauseAudio, cancelAnimationFrame.
  destruct (sources (refs p)); [reflexivity |].
  destruct (audioContextRef (refs p)); [| reflexivity].
  qcbn. destruct (_ =? _)%nat; reflexivity.
Qed.

Lemma playAudio_effect p c b g :
  audioContextRef (refs p) = Some c ->
  audioBuffer (session p) = Some b ->
  gainNodeRef (refs p) = Some g ->
  let off := pauseTimeRef (refs p) in
  let pct := ((currentTime c - (currentTime c - off))
              / durationOr1 (session p)) * 100 in
  sources (refs (playAudio p))
  = {| buffer := b; startOffset := off; stopped := false |}
    :: sources (refs p)
  /\ startTimeRef (refs (playAudio p)) = currentTime c - off
  /\ progress (state (playAudio p)) = (if Qle_bool 100 pct then 100 else pct)
  /\ isPlaying (state (playAudio p)) = negb (Qle_bool 100 pct)
  /\ pct == off / durationOr1 (session p) * 100.
Proof.
  intros Hc Hb Hg off pct. subst off pct.
  unfold playAudio, updateProgress, requestAnimationFrame.
  rewrite Hc, Hb, Hg. qcbn. rewrite !ctx_resume_time.
  destruct (Qle_bool _ _); qcbn; rewrite ?ctx_resume_time;
    repeat split;
    (apply Qmult_comp; [| reflexivity]; apply Qdiv_comp; [ring | reflexivity]).
Qed.

Lemma onresult_playing_progress t p :
  synced p -> isPlaying (state p) = true ->
  progress (state (onresult t p)) = progress (state p).
Proof.
  intros (Hp & _ & _) Hip. unfold onresult. rewrite Hp, Hip. cbn [negb].
  unfold toggleMute.
  repeat match goal with
         | |- context [if ?b then _ else _] => destruct b
         | |- context [match ?x with Some _ => _ | None => _ end] =>
             destruct x
         end; auto using pauseAudio_progress.
Qed.

Lemma step_progress_monotone ev p :
  Inv p -> isPlaying (state p) = true ->
  progress (state p) <= progress (state (step ev p)).
Proof.
  intros (Hs & _ & Hl) Hip. unfold step. rewrite runEffects_state.
  destruct ev as [| | | | i t | i e | | n | b]; cbn [handler].
  - unfold togglePlay. rewrite Hip, pauseAudio_progress. apply Qle_refl.
  - unfold toggleMute. destruct (gainNodeRef _); apply Qle_refl.
  - apply Qle_refl.
  - apply Qle_refl.
  - destruct (instanceExists _ _); [| apply Qle_refl].
    rewrite onresult_playing_progress by assumption. apply Qle_refl.
  - destruct (instanceExists _ _); [| apply Qle_refl].
    pose proof (onerror_loopCore (isEffectActive i p) e p) as H.
    destruct (loopCore_fields _ _ H) as (_ & E & _). rewrite E.
    apply Qle_refl.
  - destruct (runFrame_cases p Hl) as [(Hf & _) | (_ & ->)]; [congruence |].
    destruct Hl as (_ & _ & (_ & H100) & _ & H5 & _).
    destruct (H5 Hip) as (c & s0 & r0 & Hc & _ & _ & _ & Hpr).
    unfold updateProgress, requestAnimationFrame, percentAt in *.
    open_player p. qcbn. subst ac. 
    destruct (Qle_bool _ _); qcbn; assumption.
  - unfold advance. destruct (audioContextRef _); apply Qle_refl.
  - apply Qle_refl.
Qed.

Lemma step_pause p :
  Inv p -> isPlaying (state p) = true ->
  let q := step ClickPlay p in
  isPlaying (state q) = false
  /\ progress (state q) = progress (state p)
  /\ rafQueue (platform q) = []
  /\ (exists c, audioContextRef (refs p) = Some c
               /\ pauseTimeRef (refs q)
                  = currentTime c - startTimeRef (refs p))
  /\ progress (state q)
     <= pauseTimeRef (refs q) / durationOr1 (session p) * 100.
Proof.
  intros (Hs & Ha & Hl) Hip q.
  assert (Hq : Inv q) by (apply step_Inv; split; [| split]; assumption).
  pose proof (runEffects_core p (handler ClickPlay p)) as Hcore.
  fold (step ClickPlay p) in Hcore. fold q in Hcore.
  cbn [handler] in Hcore. unfold togglePlay in Hcore. rewrite Hip in Hcore.
  unfold core in Hcore.
  inversion Hcore as [[E1 E2 E3 E4 E5 E6 E7 E8 E9 E10 E11 E12]].
  destruct Hl as (_ & _ & _ & _ & H5 & _).
  destruct (H5 Hip) as (c & s0 & r0 & Hc & Hso & _ & _ & Hpr).
  destruct (pauseAudio_effect p c s0 r0 Hc Hso)
    as (P1 & P2 & P3 & P4 & P5 & _).
  assert (Hplay : isPlaying (state q) = false) by (rewrite E2; exact P1).
  split; [exact Hplay |]. split; [rewrite E2; exact P2 |].
  split; [destruct Hq as (_ & _ & (_ & _ & _ & _ & _ & H6)); auto |].
  split; [exists c; split; [exact Hc | rewrite E7; exact P3] |].
  rewrite E2, P2, E7, P3. exact Hpr.
Qed.


Lemma runEffects_session prev next :
  session (runEffects prev next) = session next.
Proof.
  pose proof (runEffects_core prev next) as H. unfold core in H.
  now inversion H.
Qed.

Lemma runEffects_fields prev next :
  state (runEffects prev next) = state next
  /\ audioContextRef (refs (runEffects prev next))
     = audioContextRef (refs next)
  /\ sources (refs (runEffects prev next)) = sources (refs next)
  /\ startTimeRef (refs (runEffects prev next)) = startTimeRef (refs next)
  /\ pauseTimeRef (refs (runEffects prev next)) = pauseTimeRef (refs next)
  /\ rafQueue (platform (runEffects prev next)) = rafQueue (platform next).
Proof.
  pose proof (runEffects_core prev next) as H. unfold core in H.
  inversion H as [[E1 E2 E3 E4 E5 E6 E7 E8 E9 E10 E11 E12]].
  repeat split; assumption.
Qed.

Lemma handler_frozen ev p :
  Inv p -> isPlaying (state p) = false -> requestsPlay ev = false ->
  isPlaying (state (handler ev p)) = false
  /\ progress (state (handler ev p)) = progress (state p)
  /\ pauseTimeRef (refs (handler ev p)) = pauseTimeRef (refs p)
  /\ rafQueue (platform (handler ev p)) = []
  /\ sources (refs (handler ev p)) = sources (refs p)
  /\ session (handler ev p) = session p.
Proof.
  intros (Hs & _ & Hl) Hip Hreq.
  assert (Hrq : rafQueue (platform p) = [])
    by (destruct Hl as (_ & _ & _ & _ & _ & H6); auto).
  assert (Hcore : forall q, loopCore q = loopCore p ->
            isPlaying (state q) = false
            /\ progress (state q) = progress (state p)
            /\ pauseTimeRef (refs q) = pauseTimeRef (refs p)
            /\ rafQueue (platform q) = []
            /\ sources (refs q) = sources (refs p)
            /\ session q = session p).
  { intros q Hq.
    destruct (loopCore_fields _ _ Hq) as (E1 & E2 & E3 & E4 & E5 & E6).
    rewrite E1, E2, E3, E4, E5, E6. auto 7. }
  destruct ev as [| | | | i t | i e | | n | b]; cbn [handler].
  - discriminate.
  - apply Hcore, toggleMute_loopCore.
  - apply Hcore. reflexivity.
  - apply Hcore. reflexivity.
  - destruct (instanceExists i p); [| apply Hcore; reflexivity].
    rewrite (onresult_dispatch t p Hs). unfold dispatch.
    cbn [requestsPlay] in Hreq.
    destruct (recognize _) as [c |]; [| apply Hcore; reflexivity].
    destruct (fires c p) eqn:Ef; [| apply Hcore; reflexivity].
    destruct c; try discriminate; cbn [fires perform] in *;
      try (rewrite Hip in Ef; discriminate);
      apply Hcore; try apply toggleMute_loopCore; reflexivity.
  - destruct (instanceExists i p); apply Hcore;
      [apply onerror_loopCore | reflexivity].
  - destruct (runFrame_cases p Hl) as [(_ & -> & _) | (Hf & _)];
      [| congruence].
    apply Hcore. unfold loopCore. cbn. now rewrite Hrq.
  - unfold advance. destruct (audioContextRef (refs p)); cbn; auto 7.
  - apply Hcore. reflexivity.
Qed.

Lemma step_frozen ev p :
  Inv p -> isPlaying (state p) = false -> requestsPlay ev = false ->
  let q := step ev p in
  isPlaying (state q) = false
  /\ progress (state q) = progress (state p)
  /\ pauseTimeRef (refs q) = pauseTimeRef (refs p)
  /\ rafQueue (platform q) = []
  /\ sources (refs q) = sources (refs p)
  /\ session q = session p.
Proof.
  intros HI Hip Hreq q. subst q. unfold step.
  destruct (runEffects_fields p (handler ev p))
    as (E1 & _ & E3 & _ & E5 & E6).
  rewrite E1, E3, E5, E6, runEffects_session. now apply handler_frozen.
Qed.

Lemma step_resume p c b g :
  isPlaying (state p) = false ->
  audioContextRef (refs p) = Some c ->
  audioBuffer (session p) = Some b ->
  gainNodeRef (refs p) = Some g ->
  let q := step ClickPlay p in
  let off := pauseTimeRef (refs p) in
  let pct := ((currentTime c - (currentTime c - off))
              / durationOr1 (session p)) * 100 in
  sources (refs q)
  = {| buffer := b; startOffset := off; stopped := false |}
    :: sources (refs p)
  /\ startTimeRef (refs q) = currentTime c - off
  /\ progress (state q) = (if Qle_bool 100 pct then 100 else pct)
  /\ isPlaying (state q) = negb (Qle_bool 100 pct)
  /\ pct == off / durationOr1 (session p) * 100.
Proof.
  intros Hip Hc Hb Hg q off pct. subst q. unfold step.
  destruct (runEffects_fields p (handler ClickPlay p))
    as (E1 & _ & E3 & E4 & _ & _).
  rewrite E1, E3, E4. cbn [handler]. unfold togglePlay. rewrite Hip.
  exact (playAudio_effect p c b g Hc Hb Hg).
Qed.

(** A play command by voice does what a click on play does. *)
Lemma voice_play_is_click_play i t p :
  synced p -> isPlaying (state p) = false ->
  instanceExists i p = true -> requestsPlay (SpeechResult i t) = true ->
  step (SpeechResult i t) p = step ClickPlay p.
Proof.
  intros Hs Hip Hi Hreq. unfold step. cbn [handler]. rewrite Hi.
  rewrite (onresult_dispatch t p Hs). unfold dispatch, togglePlay.
  cbn [requestsPlay] in Hreq. rewrite Hip.
  destruct (recognize _) as [[| | | | |] |]; try discriminate.
  cbn [fires perform]. now rewrite Hip.
Qed.


(** *** The audio graph *)

Lemma updateProgress_audioInv p : audioInv p -> audioInv (updateProgress p).
Proof.
  intros H. unfold updateProgress, requestAnimationFrame.
  destruct (audioContextRef (refs p)) eqn:E; [| exact H].
  destruct (Qle_bool _ _); exact H.
Qed.

Lemma playAudio_audioInv p : audioInv p -> audioInv (playAudio p).
Proof.
  intros H. unfold playAudio.
  destruct (audioContextRef (refs p)) as [c |] eqn:Ec; [| exact H].
  destruct (audioBuffer (session p)) as [b |] eqn:Eb; [| exact H].
  destruct (gainNodeRef (refs p)) as [g |] eqn:Eg; [| exact H].
  apply updateProgress_audioInv. unfold audioInv. cbn.
  rewrite Eg, Eb. repeat split; eauto.
Qed.

Lemma pauseAudio_audioInv p : audioInv p -> audioInv (pauseAudio p).
Proof.
  intros H. unfold pauseAudio, cancelAnimationFrame.
  destruct (sources (refs p)) eqn:Es; [exact H |].
  destruct (audioContextRef (refs p)) eqn:Ec; [| exact H].
  destruct H as (H1 & H2 & H3). unfold audioInv.
  cbn. destruct (_ =? _)%nat; cbn; rewrite Ec;
    (split; [eauto |]; split; [exact H2 |]; intros _; apply H3;
     rewrite Es; discriminate).
Qed.

Lemma toggleMute_audioInv p : audioInv p -> audioInv (toggleMute p).
Proof.
  intros H. unfold toggleMute.
  destruct (gainNodeRef (refs p)) eqn:Eg; [| exact H].
  destruct H as (H1 & H2 & H3). unfold audioInv. cbn. eauto.
Qed.

Lemma onresult_audioInv t p : audioInv p -> audioInv (onresult t p).
Proof.
  intros H. unfold onresult.
  repeat match goal with
         | |- context [if ?b then _ else _] => destruct b
         end;
    auto using playAudio_audioInv, pauseAudio_audioInv, toggleMute_audioInv.
Qed.

Lemma onerror_audioInv a e p : audioInv p -> audioInv (onerror a e p).
Proof.
  intros H. unfold onerror.
  repeat match goal with
         | |- context [if ?b then _ else _] => destruct b
         end; exact H.
Qed.

Lemma fold_updateProgress_audioInv (l : list nat) :
  forall q, audioInv q ->
    audioInv (fold_left (fun q _ => updateProgress q) l q).
Proof.
  induction l as [| h l IH]; intros q Hq; cbn [fold_left]; [exact Hq |].
  apply IH, updateProgress_audioInv, Hq.
Qed.

Lemma handler_audioInv ev p : audioInv p -> audioInv (handler ev p).
Proof.
  intros H. destruct ev as [| | | | i t | i e | | n | b]; cbn [handler].
  - unfold togglePlay. destruct (isPlaying (state p));
      auto using playAudio_audioInv, pauseAudio_audioInv.
  - now apply toggleMute_audioInv.
  - exact H.
  - exact H.
  - destruct (instanceExists i p); auto using onresult_audioInv.
  - destruct (instanceExists i p); auto using onerror_audioInv.
  - unfold runFrame. apply fold_updateProgress_audioInv. exact H.
  - unfold advance.
    destruct (audioContextRef (refs p)) eqn:Ec; [| exact H].
    destruct H as (_ & H2 & H3). unfold audioInv. cbn. eauto.
  - exact H.
Qed.

Lemma step_audioInv ev p : audioInv p -> audioInv (step ev p).
Proof.
  intros H. apply (handler_audioInv ev) in H. unfold step.
  pose proof (runEffects_core p (handler ev p)) as Hc. unfold core in Hc.
  inversion Hc as [[E1 E2 E3 E4 E5 E6 E7 E8 E9 E10 E11 E12]].
  unfold audioInv. now rewrite E1, E3, E4, E5.
Qed.

Lemma mount_audioInv s ctx0 playable supported :
  audioInv (mount s ctx0 playable supported).
Proof.
  unfold mount. set (p0 := initialRender s playable supported).
  pose proof (runEffects_core p0 (mountEffects ctx0 p0)) as Hc.
  unfold core in Hc.
  inversion Hc as [[E1 E2 E3 E4 E5 E6 E7 E8 E9 E10 E11 E12]].
  unfold audioInv. rewrite E1, E3, E4, E5. clear.
  unfold mountEffects. set (q := set_gainNodeRef _ _).
  assert (Hq : audioInv q).
  { subst q p0. unfold audioInv, syncAmbient, ambientPause. cbn.
    repeat split; eauto. intros H. now elim H. }
  apply playAudio_audioInv in Hq.
  unfold speechEffect. destruct (speechSupported _); exact Hq.
Qed.

Lemma reachable_audioInv p : reachable p -> audioInv p.
Proof.
  induction 1 as [s ctx0 playable supported | ev p _ IH].
  - apply mount_audioInv.
  - now apply step_audioInv.
Qed.

(** While paused, a run without play requests keeps the progress and the
    pause offset. *)
Lemma run_frozen evs :
  forall p,
    Inv p -> isPlaying (state p) = false ->
    forallb (fun ev => negb (requestsPlay ev)) evs = true ->
    Inv (run evs p)
    /\ isPlaying (state (run evs p)) = false
    /\ progress (state (run evs p)) = progress (state p)
    /\ pauseTimeRef (refs (run evs p)) = pauseTimeRef (refs p)
    /\ sources (refs (run evs p)) = sources (refs p)
    /\ session (run evs p) = session p.
Proof.
  induction evs as [| ev evs IH]; intros p HI Hip Hall; [auto 7 |].
  cbn [forallb] in Hall. apply andb_true_iff in Hall as [Hev Hall].
  apply negb_true_iff in Hev.
  destruct (step_frozen ev p HI Hip Hev) as (F1 & F2 & F3 & _ & F5 & F6).
  destruct (IH (step ev p) (step_Inv ev p HI) F1 Hall)
    as (G0 & G1 & G2 & G3 & G4 & G5).
  change (run (ev :: evs) p) with (run evs (step ev p)).
  rewrite G2, G3, G4, G5, F2, F3, F5, F6. auto 7.
Qed.

(** *** The ambient track *)

Lemma updateProgress_playable p :
  ambientPlayable (platform (updateProgress p))
  = ambientPlayable (platform p)
  /\ isAmbientOn (state (updateProgress p)) = isAmbientOn (state p).
Proof.
  unfold updateProgress, requestAnimationFrame.
  destruct (audioContextRef (refs p)); [| split; reflexivity].
  destruct (Qle_bool _ _); split; reflexivity.
Qed.

Lemma playAudio_playable p :
  ambientPlayable (platform (playAudio p)) = ambientPlayable (platform p)
  /\ isAmbientOn (state (playAudio p)) = isAmbientOn (state p).
Proof.
  unfold playAudio.
  destruct (audioContextRef (refs p)); [| split; reflexivity].
  destruct (audioBuffer (session p)); [| split; reflexivity].
  destruct (gainNodeRef (refs p)); [| split; reflexivity].
  match goal with
  | |- context [updateProgress ?q] =>
      destruct (updateProgress_playable q) as [-> ->]
  end.
  split; reflexivity.
Qed.

Lemma pauseAudio_playable p :
  ambientPlayable (platform (pauseAudio p)) = ambientPlayable (platform p)
  /\ isAmbientOn (state (pauseAudio p)) = isAmbientOn (state p).
Proof.
  unfold pauseAudio, cancelAnimationFrame.
  destruct (sources (refs p)); [split; reflexivity |].
  destruct (audioContextRef (refs p)); [| split; reflexivity].
  cbn. destruct (_ =? _)%nat; split; reflexivity.
Qed.

Lemma toggleMute_playable p :
  ambientPlayable (platform (toggleMute p)) = ambientPlayable (platform p).
Proof.
  unfold toggleMute. destruct (gainNodeRef (refs p)); reflexivity.
Qed.

Lemma onresult_playable t p :
  ambientPlayable (platform (onresult t p)) = ambientPlayable (platform p).
Proof.
  unfold onresult.
  repeat match goal with
         | |- context [if ?b then _ else _] => destruct b
         end;
    try reflexivity;
    try apply toggleMute_playable;
    try apply (proj1 (playAudio_playable p));
    apply (proj1 (pauseAudio_playable p)).
Qed.

Lemma onerror_playable a e p :
  ambientPlayable (platform (onerror a e p)) = ambientPlayable (platform p).
Proof.
  unfold onerror.
  repeat match goal with
         | |- context [if ?b then _ else _] => destruct b
         end; reflexivity.
Qed.

Lemma fold_updateProgress_playable (l : list nat) :
  forall q,
    ambientPlayable (platform (fold_left (fun q _ => updateProgress q) l q))
    = ambientPlayable (platform q).
Proof.
  induction l as [| h l IH]; intros q; cbn [fold_left]; [reflexivity |].
  rewrite IH. apply (proj1 (updateProgress_playable q)).
Qed.

Lemma handler_playable ev p :
  honours ev = true -> ambientPlayable (platform p) = true ->
  ambientPlayable (platform (handler ev p)) = true.
Proof.
  intros Hh Hp.
  destruct ev as [| | | | i t | i e | | n | b]; cbn [handler].
  - unfold togglePlay. destruct (isPlaying (state p)).
    + now rewrite (proj1 (pauseAudio_playable p)).
    + now rewrite (proj1 (playAudio_playable p)).
  - now rewrite toggleMute_playable.
  - exact Hp.
  - exact Hp.
  - destruct (instanceExists i p); [now rewrite onresult_playable | exact Hp].
  - destruct (instanceExists i p); [now rewrite onerror_playable | exact Hp].
  - unfold runFrame. now rewrite fold_updateProgress_playable.
  - unfold advance. destruct (audioContextRef (refs p)); exact Hp.
  - now destruct b.
Qed.

(** While the platform honours the play requests no rejection is on
    record. *)
Lemma step_honoured ev p :
  honours ev = true ->
  ambientPlayable (platform p) = true ->
  ambientPlayFailed (platform p) = false ->
  ambientPlayable (platform (step ev p)) = true
  /\ ambientPlayFailed (platform (step ev p)) = false.
Proof.
  intros Hh Hp Hf. unfold step.
  pose proof (handler_playable ev p Hh Hp) as Hp'.
  pose proof (handler_shadow ev p) as Hsh. unfold shadow in Hsh.
  inversion Hsh as [[Hs1 Hs2 Hs3 Hs4 Hf']]. rewrite Hf in Hf'.
  pose proof (runEffects_core p (handler ev p)) as Hcore. unfold core in Hcore.
  inversion Hcore as [[E1 E2 E3 E4 E5 E6 E7 E8 E9 E10 E11 E12]].
  split; [now rewrite E11 |].
  pose proof (runEffects_ambient p (handler ev p)) as RA.
  rewrite Hp', Hf' in RA.
  apply (f_equal snd) in RA. cbn [snd] in RA. rewrite RA.
  repeat match goal with
         | |- context [if ?b then _ else _] => destruct b
         | |- context [match ?x with Some _ => _ | None => _ end] =>
             destruct x
         end; reflexivity.
Qed.

Lemma run_honoured evs :
  forall p,
    forallb honours evs = true ->
    ambientPlayable (platform p) = true ->
    ambientPlayFailed (platform p) = false ->
    ambientPlayFailed (platform (run evs p)) = false.
Proof.
  induction evs as [| ev evs IH]; intros p Hall Hp Hf; [exact Hf |].
  cbn [forallb] in Hall. apply andb_true_iff in Hall as [Hev Hall].
  destruct (step_honoured ev p Hev Hp Hf) as [Hp' Hf'].
  exact (IH (step ev p) Hall Hp' Hf').
Qed.

Lemma run_reachable evs :
  forall p, reachable p -> reachable (run evs p).
Proof.
  induction evs as [| ev evs IH]; intros p Hp; [exact Hp |].
  apply (IH (step ev p)). now apply reach_step.
Qed.

Lemma mount_honoured s ctx0 supported :
  ambientPlayable (platform (mount s ctx0 true supported)) = true
  /\ ambientPlayFailed (platform (mount s ctx0 true supported)) = false.
Proof.
  destruct s as [i t d ip sc iu [[l r] |]];
    destruct ctx0, supported; vm_compute; split; reflexivity.
Qed.


(** C3, amended. In every reachable state the ambient track sounds only
    if the player is playing and the ambient flag is on; when both hold it
    sounds unless the platform rejected the [play()] the effect issued (the
    rejection is logged and ignored); toggling either flag while the other
    is off leaves it silent; and as long as the platform honours the play
    requests it sounds if and only if both hold. *)
Theorem ambient_follows_playing_and_flag :
  forall p, reachable p ->
    (ambientAudible p = true ->
     isPlaying (state p) = true /\ isAmbientOn (state p) = true)
    /\ (isPlaying (state p) = true -> isAmbientOn (state p) = true ->
        ambientAudible p = true \/ ambientPlayFailed (platform p) = true)
    /\ (isPlaying (state p) = false ->
        ambientAudible (step ClickAmbient p) = false)
    /\ (isAmbientOn (state p) = false ->
        ambientAudible (step ClickPlay p) = false)
    /\ (forall s ctx0 supported evs,
          forallb honours evs = true ->
          let q := run evs (mount s ctx0 true supported) in
          ambientAudible q = isPlaying (state q) && isAmbientOn (state q)).
Proof.
  intros p Hp.
  assert (Honly : forall q, reachable q -> ambientAudible q = true ->
            isPlaying (state q) = true /\ isAmbientOn (state q) = true).
  { intros q Hq Haud.
    destruct (reachable_Inv q Hq) as (_ & (_ & Heq & _) & _).
    rewrite Haud in Heq. symmetry in Heq.
    apply andb_true_iff in Heq as [Heq _].
    now apply andb_true_iff in Heq. }
  split; [apply Honly, Hp |]. split; [| split; [| split]].
  - intros Hpl Hon.
    destruct (reachable_Inv p Hp) as (_ & (_ & Heq & _) & _).
    rewrite Heq, Hpl, Hon. cbn.
    destruct (ambientPlayFailed (platform p)); auto.
  - intros Hpl.
    destruct (ambientAudible (step ClickAmbient p)) eqn:Ea; [| reflexivity].
    destruct (Honly _ (reach_step ClickAmbient p Hp) Ea) as [H _].
    unfold step in H. rewrite runEffects_state in H. cbn in H. congruence.
  - intros Hoff.
    destruct (ambientAudible (step ClickPlay p)) eqn:Ea; [| reflexivity].
    destruct (Honly _ (reach_step ClickPlay p Hp) Ea) as [_ H].
    unfold step in H. rewrite runEffects_state in H. cbn [handler] in H.
    unfold togglePlay in H. destruct (isPlaying (state p)).
    + rewrite (proj2 (pauseAudio_playable p)) in H. congruence.
    + rewrite (proj2 (playAudio_playable p)) in H. congruence.
  - intros s ctx0 supported evs Hall q.
    assert (Hq : reachable q) by (apply run_reachable, reach_mount).
    destruct (reachable_Inv q Hq) as (_ & (_ & Heq & _) & _).
    destruct (mount_honoured s ctx0 supported) as [Hpl Hf].
    rewrite Heq. subst q. rewrite (run_honoured evs _ Hall Hpl Hf).
    cbn. apply andb_true_r.
Qed.

Lemma ambient_follows_playing_and_flag_witness :
  reachable (step ClickAmbient demoPlayer)
  /\ ambientAudible (step ClickAmbient demoPlayer) = true
  /\ isPlaying (state (step ClickAmbient demoPlayer)) = true
  /\ isAmbientOn (state (step ClickAmbient demoPlayer)) = true.
Proof.
  assert (H : reachable (step ClickAmbient demoPlayer))
    by apply reach_step, reach_mount.
  split; [exact H |].
  assert (Ha : ambientAudible (step ClickAmbient demoPlayer) = true)
    by (vm_compute; reflexivity).
  split; [exact Ha |].
  exact (proj1 (ambient_follows_playing_and_flag _ H) Ha).
Defined.

(** C3 as stated fails.  The player is playing; the platform stops
    honouring [play()] on the ambient element; the user switches ambient
    on: both conditions hold and the ambient track is silent. *)
Lemma ambient_silent_when_play_rejected :
  let p := run [AmbientPolicy false; ClickAmbient] demoPlayer in
  reachable p
  /\ isPlaying (state p) = true
  /\ isAmbientOn (state p) = true
  /\ ambientAudible p = false.
Proof.
  cbv zeta. split.
  - unfold run. cbn [fold_left]. repeat apply reach_step. apply reach_mount.
  - vm_compute. repeat split.
Qed.

(** C2. While the player is playing, no event moves the displayed
    progress backwards, a tick of the progress loop in particular.  A pause
    leaves the progress at its last value, records clock time minus start
    epoch as the pause offset (the progress shown is not ahead of that
    offset) and leaves no callback scheduled.  While paused, nothing but a
    play request changes the progress or the offset, however the clock
    moves.  The play request that follows, by click or by voice, starts a
    source on the session's buffer at the recorded offset, sets the start
    epoch to clock time minus the offset, and shows the progress of the
    offset capped at 100, which is not behind the frozen value. *)
Theorem progress_monotone_freezes_and_resumes :
  forall p, reachable p -> isPlaying (state p) = true ->
    (forall ev, progress (state p) <= progress (state (step ev p)))
    /\ (let q := step ClickPlay p in
        isPlaying (state q) = false
        /\ progress (state q) = progress (state p)
        /\ rafQueue (platform q) = []
        /\ (exists c, audioContextRef (refs p) = Some c
                     /\ pauseTimeRef (refs q)
                        = currentTime c - startTimeRef (refs p)))
    /\ (forall evs,
          forallb (fun ev => negb (requestsPlay ev)) evs = true ->
          let q := run evs (step ClickPlay p) in
          let off := pauseTimeRef (refs (step ClickPlay p)) in
          isPlaying (state q) = false
          /\ progress (state q) = progress (state p)
          /\ pauseTimeRef (refs q) = off
          /\ (forall i t,
                instanceExists i q = true ->
                requestsPlay (SpeechResult i t) = true ->
                step (SpeechResult i t) q = step ClickPlay q)
          /\ exists c b,
               audioContextRef (refs q) = Some c
               /\ audioBuffer (session q) = Some b
               /\ let r := step ClickPlay q in
                  let pct := ((currentTime c - (currentTime c - off))
                              / durationOr1 (session q)) * 100 in
                  sources (refs r)
                  = {| buffer := b; startOffset := off; stopped := false |}
                    :: sources (refs q)
                  /\ startTimeRef (refs r) = currentTime c - off
                  /\ pct == off / durationOr1 (session q) * 100
                  /\ progress (state r)
                     = (if Qle_bool 100 pct then 100 else pct)
                  /\ progress (state p) <= progress (state r)).
Proof.
  intros p Hp Hpl. pose proof (reachable_Inv p Hp) as HI.
  pose proof (step_pause p HI Hpl) as Hpause. cbv zeta in Hpause.
  destruct Hpause as (P1 & P2 & P3 & P4 & P5).
  split; [intros ev; now apply step_progress_monotone |].
  split; [auto |].
  intros evs Hall q off.
  set (q0 := step ClickPlay p) in *.
  assert (Hq0 : reachable q0) by (apply reach_step, Hp).
  destruct (run_frozen evs q0 (reachable_Inv q0 Hq0) P1 Hall)
    as (HIq & F1 & F2 & F3 & F4 & F5).
  fold q in HIq, F1, F2, F3, F4, F5.
  destruct HI as (Hsy & Ham & (L1 & L2 & (L3 & H100) & L4 & H5 & L6)).
  destruct (H5 Hpl) as (c0 & s0 & r0 & Hc0 & Hso & _).
  destruct (pauseAudio_effect p c0 s0 r0 Hc0 Hso)
    as (_ & _ & _ & Esrc & _ & Esess).
  assert (Hq0src : sources (refs q0) = stop s0 :: r0).
  { unfold q0, step.
    destruct (runEffects_fields p (handler ClickPlay p)) as (_ & _ & E3 & _).
    rewrite E3. cbn [handler]. unfold togglePlay. now rewrite Hpl. }
  assert (Hq0sess : session q0 = session p).
  { unfold q0, step. rewrite runEffects_session. cbn [handler].
    unfold togglePlay. now rewrite Hpl. }
  assert (Hq : reachable q) by (apply run_reachable, Hq0).
  split; [exact F1 |]. split; [now rewrite F2 |]. split; [exact F3 |].
  split.
  { intros i t Hi Hreq. destruct HIq as (Hs & _).
    now apply voice_play_is_click_play. }
  destruct (reachable_audioInv q Hq) as ((c & Hc) & (g & Hg) & Hsrc).
  destruct Hsrc as (b & Hb); [rewrite F4, Hq0src; discriminate |].
  exists c, b. split; [exact Hc |]. split; [exact Hb |].
  destruct (step_resume q c b g F1 Hc Hb Hg) as (R1 & R2 & R3 & R4 & R5).
  rewrite F3 in R1, R2, R3, R5.
  cbv zeta. split; [exact R1 |]. split; [exact R2 |]. split; [exact R5 |].
  split; [exact R3 |].
  rewrite R3.
  assert (Hle : progress (state p)
                <= off / durationOr1 (session q) * 100).
  { rewrite <- P2, F5, Hq0sess. exact P5. }
  destruct (Qle_bool _ _); [exact H100 |].
  rewrite R5. exact Hle.
Qed.

Lemma progress_monotone_freezes_and_resumes_witness :
  reachable demoPlayer
  /\ isPlaying (state demoPlayer) = true
  /\ progress (state demoPlayer)
     <= progress (state (step AnimationFrame demoPlayer)).
Proof.
  assert (H : reachable demoPlayer) by apply reach_mount.
  assert (Hpl : isPlaying (state demoPlayer) = true)
    by (vm_compute; reflexivity).
  split; [exact H |]. split; [exact Hpl |].
  exact (proj1 (progress_monotone_freezes_and_resumes _ H Hpl)
           AnimationFrame).
Defined.

(** A run: one second of playback, a pause half a second later, a second
    of silence, and the resume.  The progress goes 0, 10, stays 10 while
    paused, and resumes at 15, the pause offset of a second and a half. *)
Example pause_and_resume_run :
  let tick := [ClockAdvance 24000; AnimationFrame] in
  let p1 := run tick demoPlayer in
  let p2 := run [ClockAdvance 12000; ClickPlay] p1 in
  let p3 := run tick p2 in
  let p4 := step ClickPlay p3 in
  progress (state p1) == 10
  /\ progress (state p2) == 10 /\ isPlaying (state p2) = false
  /\ pauseTimeRef (refs p2) == 3 # 2
  /\ progress (state p3) == 10
  /\ progress (state p4) == 15 /\ isPlaying (state p4) = true
  /\ (exists src rest, sources (refs p4) = src :: rest
                       /\ startOffset src == 3 # 2).
Proof.
  cbv zeta. vm_compute. repeat split; try discriminate.
  eexists _, _. split; [reflexivity |]. vm_compute. reflexivity.
Qed.

End InvariantFacts.

(* ------------------------------------------------------------------ *)
(** ** Blank strings *)

Section StringFacts.

Import JsString.
Local Open Scope string_scope.

Lemma trimStart_blank s : isBlank s = true -> trimStart s = EmptyString.
Proof.
  induction s as [| c t IH]; cbn; [reflexivity |].
  intros H. apply andb_true_iff in H as [Hc Ht]. rewrite Hc. now apply IH.
Qed.

Lemma trimStart_head s :
  match trimStart s with
  | EmptyString => isBlank s = true
  | String c _ => isWhiteSpace c = false /\ isBlank s = false
  end.
Proof.
  induction s as [| c t IH]; cbn [trimStart isBlank]; [reflexivity |].
  destruct (isWhiteSpace c) eqn:Hc; cbn [andb].
  - exact IH.
  - split; [exact Hc | reflexivity].
Qed.

Lemma trimEnd_head c t :
  isWhiteSpace c = false -> trimEnd (String c t) <> EmptyString.
Proof.
  intros Hc. cbn. destruct (trimEnd t); [rewrite Hc |]; discriminate.
Qed.

(** [s.trim()] is empty exactly when [s] is blank. *)
Lemma trim_blank s : truthy (trim s) = negb (isBlank s).
Proof.
  unfold trim. pose proof (trimStart_head s) as H.
  destruct (trimStart s) as [| c t].
  - rewrite H. reflexivity.
  - destruct H as [Hc ->]. pose proof (trimEnd_head c t Hc) as Hne.
    destruct (trimEnd (String c t)); [contradiction | reflexivity].
Qed.

End StringFacts.

(* ------------------------------------------------------------------ *)
(** ** Session generator: every outcome of a run *)

Section GeneratorOutcomes.

Import Types JsString Generator.
Local Open Scope string_scope.

(** X1. A run of [handleGenerate] on a prompt that is not blank ends with
    nothing in flight, the prompt untouched and the button enabled again,
    in one of three ways.  The plan request fails: it is the only call,
    no session is handed over, FAILED.  The plan arrives and the audio
    request fails: the three calls are made, no session, FAILED.  The plan
    and the audio arrive: the three calls are made, exactly one session is
    handed over, built from the plan, the time, the buffer and the image
    URL (the fallback when the image request failed), and the error of an
    earlier run is cleared. *)
Theorem handleGenerate_outcomes :
  forall svc now w,
    promptGiven w ->
    let w' := handleGenerate svc now w in
    prompt w' = prompt w
    /\ busy (status w') = false
    /\ generateDisabled w' = false
    /\ match generateMeditationPlan svc (prompt w) with
       | inl _ =>
           calls w' = (calls w ++ [PlanCall (prompt w)])%list
           /\ created w' = created w
           /\ FAILED (status w')
       | inr plan =>
           calls w' = (calls w ++ [PlanCall (prompt w);
                                   ImageCall (Plan.imagePrompt plan);
                                   AudioCall (Plan.script plan)])%list
           /\ match generateMeditationAudio svc (Plan.script plan) with
              | inl _ => created w' = created w /\ FAILED (status w')
              | inr buf =>
                  created w' = (created w ++
                    [{| id := toString now;
                        title := Plan.title plan;
                        description := Plan.description plan;
                        imagePrompt := Plan.imagePrompt plan;
                        script := Plan.script plan;
                        imageUrl :=
                          Some match generateMeditationImage svc
                                       (Plan.imagePrompt plan) with
                               | inr url => url
                               | inl _ => fallbackImage
                               end;
                        audioBuffer := Some buf |}])%list
                  /\ error (status w') = None
              end
       end.
Proof.
  intros svc now w Hp w'. subst w'.
  assert (Ht : JsString.truthy (prompt w) = true).
  { unfold promptGiven in Hp. rewrite trim_blank in Hp.
    destruct (prompt w); [discriminate Hp | reflexivity]. }
  unfold generateDisabled, busy.
  rewrite (handleGenerate_unfold svc now w Hp).
  unfold catch, bind, promiseAll, callPlan, callImage, callAudio, issue,
    settle, onSessionCreated. cbn.
  destruct (generateMeditationPlan svc (prompt w)) as [e | plan]; cbn.
  { rewrite Ht. repeat split. }
  destruct (generateMeditationImage svc (Plan.imagePrompt plan)) as [ei | url];
    cbn;
    destruct (generateMeditationAudio svc (Plan.script plan)) as [ea | buf];
    cbn; rewrite Ht, <- ?app_assoc; repeat split.
Qed.

Lemma handleGenerate_outcomes_witness :
  promptGiven oceanWorld
  /\ generateDisabled (handleGenerate imageFails 1700000000000 oceanWorld)
     = false.
Proof.
  assert (Hp : promptGiven oceanWorld) by (vm_compute; reflexivity).
  split; [exact Hp |].
  exact (proj1 (proj2 (proj2
           (handleGenerate_outcomes imageFails 1700000000000 oceanWorld
              Hp)))).
Defined.

Lemma handleGenerate_calls_plan svc now w :
  promptGiven w ->
  exists rest,
    calls (handleGenerate svc now w)
    = (calls w ++ PlanCall (prompt w) :: rest)%list.
Proof.
  intros Hp. rewrite (handleGenerate_unfold svc now w Hp).
  unfold catch, bind, promiseAll, callPlan, callImage, callAudio, issue,
    settle, onSessionCreated. cbn.
  destruct (generateMeditationPlan svc (prompt w)) as [e | plan]; cbn;
    [now exists [] |].
  destruct (generateMeditationImage svc (Plan.imagePrompt plan)) as [ei | url];
    cbn;
    destruct (generateMeditationAudio svc (Plan.script plan)) as [ea | buf];
    cbn; rewrite <- ?app_assoc; eexists; reflexivity.
Qed.

(** X2. [handleGenerate] on a prompt of white space only changes nothing:
    no status, no service call, no session.  On any other prompt it calls
    the plan service with the prompt as typed.  The button does not follow
    the same test: on a prompt that is blank but not empty it is enabled,
    and the click does nothing. *)
Theorem blank_prompt_is_ignored :
  forall svc now w,
    (isBlank (prompt w) = true -> handleGenerate svc now w = w)
    /\ (isBlank (prompt w) = false ->
        exists rest,
          calls (handleGenerate svc now w)
          = (calls w ++ PlanCall (prompt w) :: rest)%list)
    /\ (isBlank (prompt w) = true -> prompt w <> EmptyString ->
        busy (status w) = false -> generateDisabled w = false).
Proof.
  intros svc now w. split; [| split].
  - intros Hb. unfold handleGenerate. rewrite trim_blank, Hb. reflexivity.
  - intros Hb.
    assert (Hp : promptGiven w)
      by (unfold promptGiven; rewrite trim_blank, Hb; reflexivity).
    now apply handleGenerate_calls_plan.
  - intros _ Hne Hbusy. unfold generateDisabled. rewrite Hbusy.
    destruct (prompt w); [contradiction | reflexivity].
Qed.

End GeneratorOutcomes.

(* ------------------------------------------------------------------ *)
(** ** Service module *)

Section GeminiServiceFacts.

Import Types.
Local Open Scope string_scope.

Lemma getApiKey_missing env :
  GeminiService.API_KEY_missing env ->
  GeminiService.getApiKey env = inl "API Key missing".
Proof.
  unfold GeminiService.API_KEY_missing, GeminiService.getApiKey.
  intros [-> | ->]; reflexivity.
Qed.

Lemma getApiKey_present env key :
  GeminiService.getApiKey env = inr key ->
  GeminiService.API_KEY env = Some key /\ key <> EmptyString.
Proof.
  unfold GeminiService.getApiKey.
  destruct (GeminiService.API_KEY env) as [k |]; [| discriminate].
  destruct k; cbn; [discriminate |].
  intros H. injection H as <-. split; [reflexivity | discriminate].
Qed.

(** X3. Without an API key (undefined or empty) each of the four
    operations of the service module rejects with "API Key missing",
    whatever the hosted API would answer.  The generator then ends FAILED
    after its plan call, with no session; the chat panel appends the
    user's message and its connectivity notice. *)
Theorem missing_key_fails_every_request :
  forall env, GeminiService.API_KEY_missing env ->
    (forall h m, GeminiService.sendChatMessage env h m
                 = inl "API Key missing")
    /\ (forall u, GeminiService.generateMeditationPlan env u
                  = inl "API Key missing")
    /\ (forall p, GeminiService.generateMeditationImage env p
                  = inl "API Key missing")
    /\ (forall s, GeminiService.generateMeditationAudio env s
                  = inl "API Key missing")
    /\ (forall now w, Generator.promptGiven w ->
          let w' := Generator.handleGenerate (GeminiService.services env)
                      now w in
          Generator.FAILED (Generator.status w')
          /\ Generator.created w' = Generator.created w
          /\ Generator.calls w'
             = (Generator.calls w
                ++ [Generator.PlanCall (Generator.prompt w)])%list)
    /\ (forall sentAt settledAt c,
          ChatBot.isLoading c = false ->
          JsString.isBlank (ChatBot.input c) = false ->
          let c' := GeminiService.handleSend env sentAt settledAt c in
          ChatBot.messages c'
          = (ChatBot.messages c
             ++ [{| role := user; text := ChatBot.input c;
                    timestamp := sentAt |};
                 {| role := model; text := ChatBot.connectivityFailure;
                    timestamp := settledAt |}])%list
          /\ ChatBot.isLoading c' = false).
Proof.
  intros env Hk. pose proof (getApiKey_missing env Hk) as Hg.
  assert (Hplan : forall u, GeminiService.generateMeditationPlan env u
                            = inl "API Key missing").
  { intros u. unfold GeminiService.generateMeditationPlan. now rewrite Hg. }
  split.
  { intros h m. unfold GeminiService.sendChatMessage. now rewrite Hg. }
  split; [exact Hplan |].
  split.
  { intros p. unfold GeminiService.generateMeditationImage. now rewrite Hg. }
  split.
  { intros s. unfold GeminiService.generateMeditationAudio. now rewrite Hg. }
  split.
  { intros now w Hp w'. subst w'.
    rewrite (handleGenerate_unfold _ now w Hp).
    unfold Generator.catch, Generator.bind, Generator.callPlan,
      Generator.issue, Generator.settle. cbn. rewrite Hplan. cbn.
    repeat split. }
  intros sentAt settledAt c Hl Hb c'. subst c'.
  unfold GeminiService.handleSend, ChatBot.handleSend_start.
  rewrite trim_blank, Hb, Hl. cbn.
  unfold GeminiService.reply, GeminiService.sendChatMessage. rewrite Hg.
  cbn. rewrite <- app_assoc. split; reflexivity.
Qed.

Lemma missing_key_fails_every_request_witness :
  GeminiService.API_KEY_missing GeminiService.noKey
  /\ GeminiService.generateMeditationAudio GeminiService.noKey "Breathe in"
     = inl "API Key missing".
Proof.
  assert (H : GeminiService.API_KEY_missing GeminiService.noKey) by (left; reflexivity).
  split; [exact H |].
  exact (proj1 (proj2 (proj2 (proj2
           (missing_key_fails_every_request _ H)))) "Breathe in").
Defined.

Lemma prefix_app p s : String.prefix p (p ++ s) = true.
Proof.
  induction p as [| c p IH]; cbn; [now destruct s |].
  destruct (ascii_dec c c); [exact IH | contradiction].
Qed.

(** X4. When [generateMeditationImage] resolves, the key is set, the
    request carried the prompt behind the fixed quality prefix, the first
    generated image has bytes, and the result is
    "data:image/jpeg;base64," followed by these bytes: never the empty
    string and never the generator's fallback address. *)
Theorem image_is_a_data_url :
  forall env prompt url,
    GeminiService.generateMeditationImage env prompt = inr url ->
    exists key base64ImageBytes others,
      GeminiService.API_KEY env = Some key
      /\ key <> EmptyString
      /\ GeminiService.generateImages env key
           {| GeminiService.imagesModel := "imagen-4.0-generate-001";
              GeminiService.imagesPrompt :=
                "High quality, photorealistic, calm, cinematic lighting, 8k resolution, soft colors: "
                ++ prompt;
              GeminiService.numberOfImages := 1;
              GeminiService.outputMimeType := "image/jpeg";
              GeminiService.aspectRatio := "16:9" |}
         = inr {| GeminiService.generatedImages :=
                    Some (Some base64ImageBytes :: others) |}
      /\ base64ImageBytes <> EmptyString
      /\ url = "data:image/jpeg;base64," ++ base64ImageBytes
      /\ String.prefix "data:image/jpeg;base64," url = true
      /\ url <> Generator.fallbackImage.
Proof.
  intros env prompt url H.
  unfold GeminiService.generateMeditationImage, GeminiService.bind in H.
  destruct (GeminiService.getApiKey env) as [e | key] eqn:Hk;
    [discriminate |].
  apply getApiKey_present in Hk as [Hk Hne].
  fold (GeminiService.enhancedPrompt prompt).
  fold (GeminiService.imagesRequest prompt).
  destruct (GeminiService.generateImages env key _)
    as [e | [[images |]]] eqn:Hr; try discriminate.
  destruct images as [| [bytes |] others]; cbn in H; try discriminate.
  destruct bytes as [| b bytes]; cbn in H; [discriminate |].
  injection H as <-.
  exists key, (String b bytes), others.
  split; [exact Hk |]. split; [exact Hne |]. split; [exact Hr |].
  split; [discriminate |]. split; [reflexivity |].
  split; [exact (prefix_app "data:image/jpeg;base64," (String b bytes))
         | discriminate].
Qed.

Lemma image_is_a_data_url_witness :
  GeminiService.generateMeditationImage GeminiService.withKey "mist"
  = inr "data:image/jpeg;base64,AAAA"
  /\ exists key base64ImageBytes others,
       GeminiService.API_KEY GeminiService.withKey = Some key
       /\ key <> EmptyString
       /\ GeminiService.generateImages GeminiService.withKey key
            {| GeminiService.imagesModel := "imagen-4.0-generate-001";
               GeminiService.imagesPrompt :=
                 "High quality, photorealistic, calm, cinematic lighting, 8k resolution, soft colors: "
                 ++ "mist";
               GeminiService.numberOfImages := 1;
               GeminiService.outputMimeType := "image/jpeg";
               GeminiService.aspectRatio := "16:9" |}
          = inr {| GeminiService.generatedImages :=
                     Some (Some base64ImageBytes :: others) |}
       /\ base64ImageBytes <> EmptyString
       /\ "data:image/jpeg;base64,AAAA"
          = "data:image/jpeg;base64," ++ base64ImageBytes
       /\ String.prefix "data:image/jpeg;base64,"
            "data:image/jpeg;base64,AAAA" = true
       /\ "data:image/jpeg;base64,AAAA" <> Generator.fallbackImage.
Proof.
  assert (H : GeminiService.generateMeditationImage GeminiService.withKey
                "mist" = inr "data:image/jpeg;base64,AAAA")
    by (vm_compute; reflexivity).
  split; [exact H |].
  exact (image_is_a_data_url _ _ _ H).
Defined.

(** X5. With a key, each operation makes its one request and reads the
    answer as follows.  The plan: no text or an empty text is the error
    "No plan generated", any other text is parsed.  The image: no first
    image, or one without bytes, is "Failed to generate image".  The
    audio: no inline data, or empty data, is "No audio data received",
    any other data is decoded.  The chat: the text of the answer is
    returned as it is, also when there is none.  A request the API rejects
    rejects the operation with the same error. *)
Theorem empty_payload_is_an_error :
  forall env key,
    GeminiService.API_KEY env = Some key -> key <> EmptyString ->
    (forall u r,
        GeminiService.generateContent env key (GeminiService.planRequest u)
        = inr r ->
        GeminiService.generateMeditationPlan env u
        = match GeminiService.text r with
          | None | Some EmptyString => inl "No plan generated"
          | Some t => GeminiService.JSON_parse env t
          end)
    /\ (forall p r,
          GeminiService.generateImages env key
            (GeminiService.imagesRequest p) = inr r ->
          GeminiService.generateMeditationImage env p
          = match GeminiService.generatedImages r with
            | None => inl GeminiService.typeError
            | Some (Some (String b bytes) :: _) =>
                inr ("data:image/jpeg;base64," ++ String b bytes)
            | Some _ => inl "Failed to generate image"
            end)
    /\ (forall s r,
          GeminiService.generateContent env key
            (GeminiService.speechRequest s) = inr r ->
          GeminiService.generateMeditationAudio env s
          = match GeminiService.inlineData r with
            | None | Some EmptyString => inl "No audio data received"
            | Some d => GeminiService.decodeAudioData env d
            end)
    /\ (forall h m r,
          GeminiService.sendMessage env key (GeminiService.chatRequest h m)
          = inr r ->
          GeminiService.sendChatMessage env h m
          = inr (GeminiService.text r))
    /\ (forall u p s h m e,
          (GeminiService.generateContent env key
             (GeminiService.planRequest u) = inl e ->
           GeminiService.generateMeditationPlan env u = inl e)
          /\ (GeminiService.generateImages env key
                (GeminiService.imagesRequest p) = inl e ->
              GeminiService.generateMeditationImage env p = inl e)
          /\ (GeminiService.generateContent env key
                (GeminiService.speechRequest s) = inl e ->
              GeminiService.generateMeditationAudio env s = inl e)
          /\ (GeminiService.sendMessage env key
                (GeminiService.chatRequest h m) = inl e ->
              GeminiService.sendChatMessage env h m = inl e)).
Proof.
  intros env key Hk Hne.
  assert (Hg : GeminiService.getApiKey env = inr key).
  { unfold GeminiService.getApiKey. rewrite Hk.
    destruct key; [contradiction | reflexivity]. }
  unfold GeminiService.generateMeditationPlan,
    GeminiService.generateMeditationImage,
    GeminiService.generateMeditationAudio, GeminiService.sendChatMessage.
  rewrite Hg. cbn [GeminiService.bind].
  split.
  { intros u r ->. cbn. destruct (GeminiService.text r) as [[| c t] |];
      reflexivity. }
  split.
  { intros p r ->. cbn.
    destruct (GeminiService.generatedImages r)
      as [[| [[| b bytes] |] others] |]; reflexivity. }
  split.
  { intros s r ->. cbn. destruct (GeminiService.inlineData r) as [[| c t] |];
      reflexivity. }
  split.
  { intros h m r ->. reflexivity. }
  intros u p s h m e. repeat split; intros ->; reflexivity.
Qed.

Lemma empty_payload_is_an_error_witness :
  GeminiService.API_KEY GeminiService.withKey = Some "k"
  /\ "k" <> EmptyString
  /\ GeminiService.generateMeditationAudio GeminiService.withKey "Breathe"
     = inr Generator.oceanAudio.
Proof.
  assert (H1 : GeminiService.API_KEY GeminiService.withKey = Some "k")
    by reflexivity.
  assert (H2 : "k" <> EmptyString) by discriminate.
  split; [exact H1 |]. split; [exact H2 |].
  exact (proj1 (proj2 (proj2
           (empty_payload_is_an_error GeminiService.withKey "k" H1 H2)))
           "Breathe" _ eq_refl).
Defined.

End GeminiServiceFacts.

(* ------------------------------------------------------------------ *)
(** ** Chat panel under its events *)

Section ChatBotTraces.

Import Types JsString ChatBot.
Local Open Scope string_scope.

Lemma step_appends ev c :
  exists l, messages (step ev c) = (messages c ++ l)%list
            /\ (List.length l <= 1)%nat
            /\ (forall s, ev = Typing s -> l = []).
Proof.
  destruct ev as [s | now | reply now]; cbn [step].
  - exists []. rewrite app_nil_r. repeat split; auto.
  - unfold handleSend_start.
    destruct (negb _ || _).
    + exists []. rewrite app_nil_r. repeat split; auto; discriminate.
    + eexists [_]. cbn. repeat split; auto; discriminate.
  - unfold handleSend_finish.
    destruct (inflight c).
    2:{ exists []. rewrite app_nil_r. repeat split; auto; discriminate. }
    destruct reply as [e | [t |]].
    + eexists [_]. cbn. repeat split; auto; discriminate.
    + destruct (truthy t).
      * eexists [_]. cbn. repeat split; auto; discriminate.
      * exists []. cbn. rewrite app_nil_r. repeat split; auto; discriminate.
    + exists []. cbn. rewrite app_nil_r. repeat split; auto; discriminate.
Qed.

Lemma transcript_is_append_only_aux evs : forall c,
  exists l, messages (run evs c) = (messages c ++ l)%list.
Proof.
  induction evs as [| ev evs IH]; intros c.
  - exists []. cbn. now rewrite app_nil_r.
  - cbn [run fold_left]. fold (run evs (step ev c)).
    destruct (IH (step ev c)) as (l2 & E2).
    destruct (step_appends ev c) as (l1 & E1 & _).
    exists (l1 ++ l2)%list. now rewrite E2, E1, <- app_assoc.
Qed.

(** X6. Under any sequence of events the chat transcript only grows at
    its end: what was there stays, in order, and at most one message is
    added per send or settled request, none by typing. *)
Theorem transcript_is_append_only :
  forall evs c,
    exists added,
      messages (run evs c) = (messages c ++ added)%list
      /\ (List.length added
          <= List.length (filter (fun ev => match ev with
                                            | Typing _ => false
                                            | _ => true
                                            end) evs))%nat.
Proof.
  induction evs as [| ev evs IH]; intros c.
  - exists []. cbn. rewrite app_nil_r. split; [reflexivity | lia].
  - cbn [run fold_left]. fold (run evs (step ev c)).
    destruct (IH (step ev c)) as (l2 & E2 & L2).
    destruct (step_appends ev c) as (l1 & E1 & L1 & T1).
    exists (l1 ++ l2)%list. rewrite E2, E1, <- app_assoc.
    split; [reflexivity |]. rewrite length_app.
    destruct ev as [s | now | reply now]; cbn [filter List.length].
    + rewrite (T1 s eq_refl). cbn. lia.
    + lia.
    + lia.
Qed.

Lemma answersOnly_user m l :
  role m = user -> answersOnly l -> answersOnly (m :: l).
Proof.
  intros Hm Hl. destruct l as [| m1 l]; [exact I |].
  split; [| exact Hl]. rewrite Hm. discriminate.
Qed.

Lemma answersOnly_after_user m u l :
  role u = user -> answersOnly (u :: l) -> answersOnly (m :: u :: l).
Proof. intros Hu Hl. split; [intros _; exact Hu | exact Hl]. Qed.

Lemma chatInv_initial t0 : chatInv (initial t0).
Proof.
  split; [exact I |]. split; [now exists t0, [] |].
  split; [| reflexivity].
  intros m [<- | []]. cbn. discriminate.
Qed.

Lemma chatInv_step ev c : chatInv c -> chatInv (step ev c).
Proof.
  intros Hc. pose proof Hc as (Ha & (t0 & rest & Hg) & Ht & Hi).
  destruct ev as [s | now | reply now]; cbn [step].
  - exact Hc.
  - unfold handleSend_start.
    destruct (truthy (trim (input c))) eqn:Hin; cbn [negb orb];
      [| exact Hc].
    destruct (isLoading c) eqn:Hl; [exact Hc |].
    unfold chatInv. cbn. split; [| split; [| split]].
    + rewrite rev_app_distr. cbn [rev app].
      apply answersOnly_user; [reflexivity | exact Ha].
    + rewrite Hg. now exists t0, (rest ++ [{| role := user; text := input c;
                                               timestamp := now |}])%list.
    + intros m Hm. apply in_app_or in Hm as [Hm | [<- | []]];
        [now apply Ht |].
      cbn. rewrite trim_blank in Hin. now apply negb_true_iff in Hin.
    + split; [reflexivity |]. now exists (messages c), now.
  - unfold handleSend_finish.
    destruct (inflight c) as [r |] eqn:Hr; [| exact Hc].
    destruct Hi as (Hl & before & sentAt & Hm & Hh).
    assert (Hnew : forall m, role m = model -> text m <> EmptyString ->
              chatInv (setInflight None (setIsLoading false
                         (setMessages (fun prev => (prev ++ [m])%list) c)))).
    { intros m Hrole Htext. unfold chatInv. cbn. split; [| split; [| split]].
      - rewrite Hm in Ha |- *.
        rewrite rev_app_distr in Ha. rewrite !rev_app_distr.
        cbn [rev app] in Ha |- *.
        apply (answersOnly_after_user m _ (rev before));
          [reflexivity | exact Ha].
      - rewrite Hg. now exists t0, (rest ++ [m])%list.
      - intros m' Hm'. apply in_app_or in Hm' as [Hm' | [<- | []]];
          [now apply Ht |]. now rewrite Hrole.
      - reflexivity. }
    assert (Hsame : chatInv (setInflight None (setIsLoading false c))).
    { unfold chatInv. cbn. split; [exact Ha |].
      split; [now exists t0, rest |]. split; [exact Ht | reflexivity]. }
    destruct reply as [e | [t |]].
    + apply Hnew; [reflexivity | discriminate].
    + destruct (truthy t) eqn:Et; [| exact Hsame].
      apply Hnew; [reflexivity |]. cbn. now destruct t.
    + exact Hsame.
Qed.

Lemma chatInv_run evs : forall c, chatInv c -> chatInv (run evs c).
Proof.
  induction evs as [| ev evs IH]; intros c Hc; [exact Hc |].
  cbn [run fold_left]. apply IH, chatInv_step, Hc.
Qed.

Lemma answersOnly_split l2 : forall m2 m1 l1,
  answersOnly (l2 ++ m2 :: m1 :: l1)%list ->
  role m2 = model -> role m1 = user.
Proof.
  induction l2 as [| x l2 IH]; intros m2 m1 l1 H.
  - exact (proj1 H).
  - apply (IH m2 m1 l1). cbn in H.
    destruct (l2 ++ m2 :: m1 :: l1)%list eqn:E.
    + now destruct l2.
    + exact (proj2 H).
Qed.

(** X7. After any sequence of events from the first render, the
    transcript starts with the greeting; a message of the model other
    than the greeting directly follows a message of the user; no user
    message is blank and no model message is empty. *)
Theorem transcript_shape :
  forall t0 evs,
    let c := run evs (initial t0) in
    (exists rest,
        messages c
        = {| role := model; text := greeting; timestamp := t0 |} :: rest)
    /\ (forall l1 m1 m2 l2,
          messages c = (l1 ++ m1 :: m2 :: l2)%list ->
          role m2 = model -> role m1 = user)
    /\ (forall m, In m (messages c) ->
          match role m with
          | user => isBlank (text m) = false
          | model => text m <> EmptyString
          end).
Proof.
  intros t0 evs c.
  destruct (chatInv_run evs _ (chatInv_initial t0))
    as (Ha & (t1 & rest & Hg) & Ht & _).
  fold c in Ha, Hg, Ht.
  split.
  { exists rest. rewrite Hg. f_equal.
    destruct (transcript_is_append_only_aux evs (initial t0)) as (l & E).
    fold c in E. rewrite Hg in E. cbn in E. now injection E as -> _. }
  split; [| exact Ht].
  intros l1 m1 m2 l2 E. rewrite E in Ha.
  rewrite rev_app_distr in Ha. cbn [rev] in Ha. rewrite <- !app_assoc in Ha.
  cbn [app] in Ha. exact (answersOnly_split (rev l2) m2 m1 (rev l1) Ha).
Qed.

(** X8. After any sequence of events from the first render, the panel is
    loading exactly when a request is outstanding.  That request carries
    the text of the last message of the transcript, a user message, and
    as history every message before it, the greeting first.  While
    loading, the button is disabled, a send does nothing and typing
    touches neither the request nor the transcript; a settled request
    ends the loading. *)
Theorem one_request_at_a_time :
  forall t0 evs,
    let c := run evs (initial t0) in
    (isLoading c = true <-> inflight c <> None)
    /\ (forall r, inflight c = Some r ->
          isBlank (newMessage r) = false
          /\ exists before sentAt,
               messages c
               = ({| role := model; text := greeting; timestamp := t0 |}
                  :: before
                  ++ [{| role := user; text := newMessage r;
                         timestamp := sentAt |}])%list
               /\ history r
                  = {| hrole := model; parts := [greeting] |}
                    :: toHistory before)
    /\ (isLoading c = true ->
          sendDisabled c = true
          /\ (forall now, step (Send now) c = c)
          /\ (forall s, inflight (step (Typing s) c) = inflight c
                        /\ messages (step (Typing s) c) = messages c))
    /\ (forall reply now,
          isLoading (step (Settled reply now) c) = false
          /\ inflight (step (Settled reply now) c) = None).
Proof.
  intros t0 evs c.
  destruct (chatInv_run evs _ (chatInv_initial t0))
    as (_ & (t1 & rest & Hg) & Ht & Hi).
  fold c in Hg, Ht, Hi.
  assert (E0 : t1 = t0).
  { destruct (transcript_is_append_only_aux evs (initial t0)) as (l & E).
    fold c in E. rewrite Hg in E. cbn in E. now injection E as -> _. }
  subst t1.
  split; [| split; [| split]].
  - destruct (inflight c) as [r |].
    + destruct Hi as (Hl & _). split; [discriminate | intros _; exact Hl].
    + rewrite Hi. split; [discriminate | intros H; now contradiction H].
  - intros r Hr. rewrite Hr in Hi. destruct Hi as (_ & before & sentAt & Hm & Hh).
    split.
    { apply (Ht {| role := user; text := newMessage r;
                   timestamp := sentAt |}).
      rewrite Hm. apply in_or_app. right. left. reflexivity. }
    destruct before as [| g before].
    { rewrite Hg in Hm. cbn in Hm. discriminate Hm. }
    rewrite Hg in Hm. cbn in Hm. injection Hm as <- ->.
    exists before, sentAt. rewrite Hg. split; [reflexivity |].
    rewrite Hh. reflexivity.
  - intros Hl. unfold sendDisabled. rewrite Hl. split; [reflexivity |].
    split.
    + intros now. cbn [step]. unfold handleSend_start. rewrite Hl.
      now rewrite orb_true_r.
    + intros s. split; reflexivity.
  - intros reply now. cbn [step]. unfold handleSend_finish.
    destruct (inflight c) as [r |] eqn:Hr.
    + split; reflexivity.
    + split; [exact Hi | exact Hr].
Qed.

(** X9. The send button is disabled exactly when [handleSend] returns at
    its guard: while loading, or on a blank input.  Otherwise the handler
    appends the input, untrimmed, as a user message, empties the input,
    starts loading, and requests an answer to that text with the
    transcript of before as history. *)
Theorem send_button_matches_guard :
  forall now c,
    (sendDisabled c = true -> handleSend_start now c = c)
    /\ (sendDisabled c = false ->
        handleSend_start now c
        = {| input := EmptyString;
             messages := (messages c
                          ++ [{| role := user; text := input c;
                                 timestamp := now |}])%list;
             isLoading := true;
             inflight := Some {| history := toHistory (messages c);
                                 newMessage := input c |} |})
    /\ (sendDisabled c = true
        <-> (isLoading c = true \/ isBlank (input c) = true)).
Proof.
  intros now c. unfold sendDisabled, handleSend_start.
  rewrite trim_blank, negb_involutive.
  destruct (isLoading c), (isBlank (input c)); cbn;
    repeat split; try discriminate; auto.
  - intros [H | H]; discriminate H.
Qed.

End ChatBotTraces.

(* ------------------------------------------------------------------ *)
(** ** Application shell under its events *)

Section AppTraces.

Import Types App App.

Lemma newest_app evs : forall ev before,
  newest (evs ++ [ev]) before
  = match ev with
    | SessionCreated s => Some s
    | _ => newest evs before
    end.
Proof.
  induction evs as [| e evs IH]; intros ev before.
  - destruct ev; reflexivity.
  - destruct e; cbn [app newest]; apply IH.
Qed.

Lemma run_app evs ev a : run (evs ++ [ev]) a = step ev (run evs a).
Proof. unfold run. now rewrite fold_left_app. Qed.

(** X10. After any sequence of navigation clicks, created sessions and
    closings from the first render of the shell: the mode is never HOME;
    the bound session is the one created last, and is never unbound; the
    player is shown exactly when the last event created a session, and it
    shows that session; the generator is shown exactly when the last
    event was the Generate button or the closing of the player (or there
    was none). *)
Theorem player_shows_newest_session :
  forall evs,
    let a := run evs initial in
    currentMode a <> HOME
    /\ activeSession a = newest evs None
    /\ playerShown a
       = match last evs NavGenerate with
         | SessionCreated s => Some s
         | _ => None
         end
    /\ generatorShown a
       = match last evs NavGenerate with
         | NavGenerate | ClosePlayer => true
         | _ => false
         end
    /\ (currentMode a = PLAYER -> playerShown a = activeSession a
                                  /\ activeSession a <> None).
Proof.
  induction evs as [| ev evs IH] using rev_ind.
  - cbn. repeat split; discriminate.
  - cbv zeta in IH |- *. rewrite run_app, newest_app, last_last.
    destruct IH as (_ & Hs & _).
    destruct ev as [| | s |]; cbn; repeat split; try discriminate;
      try exact Hs.
Qed.

End AppTraces.

(* ------------------------------------------------------------------ *)
(** ** From the generator to the player *)

Section PipelineFacts.

Import Types Generator MediaPlayer.
Local Open Scope Q_scope.



End PipelineFacts.

(* ------------------------------------------------------------------ *)
(** ** Media player: mounting, muting, ticking, leaving *)

Section PlayerFacts.

Import Types JsString MediaPlayer VoiceSpec.
Local Open Scope Q_scope.

(** *** Mute *)













(** *** Mounting, bounds, the loop *)

(** X13. Mounting the player on a session with audio starts playback
    without a click: playing, progress 0, one source on the buffer at
    offset 0, one progress callback scheduled, a suspended context
    resumed; unmuted, ambient off and silent, not listening, and one
    recognition instance created when the browser has speech
    recognition. *)
Theorem mount_autoplays :
  forall s b ctx0 playable supported,
    audioBuffer s = Some b ->
    let m := mount s ctx0 playable supported in
    isPlaying (state m) = true
    /\ progress (state m) == 0
    /\ isMuted (state m) = false
    /\ isAmbientOn (state m) = false
    /\ isListening (state m) = false
    /\ sources (refs m)
       = [{| buffer := b; startOffset := 0; stopped := false |}]
    /\ rafQueue (platform m) = [1%nat]
    /\ animationFrameRef (refs m) = 1%nat
    /\ audioContextRef (refs m)
       = Some {| currentTime := 0;
                 ctxState := match ctx0 with
                             | suspended => running
                             | _ => ctx0
                             end |}
    /\ ambientAudible m = false
    /\ recEpoch (platform m) = (if supported then 1 else 0)%nat.
Proof.
  intros s b ctx0 playable supported Hb m. subst m.
  destruct s as [i t d ip sc iu ab]. cbn in Hb. subst ab.
  destruct b as [l r].
  destruct ctx0, playable, supported; vm_compute; repeat split.
Qed.

Lemma mount_autoplays_witness :
  audioBuffer demoSession
  = Some {| bufLength := 240000; bufSampleRate := 24000 |}
  /\ isPlaying (state demoPlayer) = true.
Proof.
  split; [reflexivity |].
  exact (proj1 (mount_autoplays demoSession _ running true true eq_refl)).
Defined.

(** X14. In every state of the mounted player the progress shown is
    between 0 and 100, the pause offset is not negative, and the start
    epoch is not ahead of the audio clock, so that the percentage computed
    from the clock is not negative. *)
Theorem progress_stays_in_range :
  forall p, reachable p ->
    0 <= progress (state p) <= 100
    /\ 0 <= pauseTimeRef (refs p)
    /\ (forall c, audioContextRef (refs p) = Some c ->
         startTimeRef (refs p) <= currentTime c
         /\ 0 <= percentAt p c).
Proof.
  intros p Hp.
  destruct (reachable_Inv p Hp) as (_ & _ & (_ & H2 & H3 & H4 & _)).
  split; [exact H3 |]. split; [exact H2 |].
  intros c Hc. specialize (H4 c Hc). split; [exact H4 |].
  apply percent_nonneg; [apply durationOr1_pos | exact H4].
Qed.

Lemma progress_stays_in_range_witness :
  reachable (run [ClockAdvance 24000; AnimationFrame] demoPlayer)
  /\ 0 <= progress (state (run [ClockAdvance 24000; AnimationFrame]
                             demoPlayer)) <= 100.
Proof.
  assert (H : reachable (run [ClockAdvance 24000; AnimationFrame] demoPlayer))
    by (apply run_reachable, reach_mount).
  split; [exact H |].
  exact (proj1 (progress_stays_in_range _ H)).
Defined.

(** X15. In every state of the mounted player at most one progress
    callback is scheduled: while playing exactly one, the one
    [animationFrameRef] names, on a player that has a context, a started
    source and an audio buffer; while not playing none. *)
Theorem one_progress_loop :
  forall p, reachable p ->
    (isPlaying (state p) = true ->
     rafQueue (platform p) = [animationFrameRef (refs p)]
     /\ animationFrameRef (refs p) <> 0%nat
     /\ exists c src rest b,
          audioContextRef (refs p) = Some c
          /\ sources (refs p) = src :: rest
          /\ audioBuffer (session p) = Some b)
    /\ (isPlaying (state p) = false -> rafQueue (platform p) = [])
    /\ (List.length (rafQueue (platform p)) <= 1)%nat.
Proof.
  intros p Hp.
  destruct (reachable_Inv p Hp) as (_ & _ & (_ & _ & _ & _ & H5 & H6)).
  destruct (reachable_audioInv p Hp) as (_ & _ & Hb).
  split; [| split; [exact H6 |]].
  - intros Hpl. destruct (H5 Hpl) as (c & src & rest & Hc & Hso & Haf & Hrq & _).
    split; [exact Hrq |]. split; [exact Haf |].
    destruct Hb as (b & Hb); [rewrite Hso; discriminate |].
    now exists c, src, rest, b.
  - destruct (isPlaying (state p)) eqn:E.
    + destruct (H5 eq_refl) as (_ & _ & _ & _ & _ & _ & Hrq & _).
      rewrite Hrq. cbn. lia.
    + rewrite (H6 eq_refl). cbn. lia.
Qed.

Lemma one_progress_loop_witness :
  reachable demoPlayer
  /\ (List.length (rafQueue (platform demoPlayer)) <= 1)%nat.
Proof.
  assert (H : reachable demoPlayer) by apply reach_mount.
  split; [exact H |].
  exact (proj2 (proj2 (one_progress_loop _ H))).
Defined.

(** *** A tick, and the end of the audio *)

Lemma tick_effect p c :
  Inv p -> isPlaying (state p) = true ->
  audioContextRef (refs p) = Some c ->
  let q := step AnimationFrame p in
  audioContextRef (refs q) = Some c
  /\ sources (refs q) = sources (refs p)
  /\ (if Qle_bool 100 (percentAt p c)
      then isPlaying (state q) = false
           /\ progress (state q) = 100
           /\ pauseTimeRef (refs q) = 0
           /\ rafQueue (platform q) = []
      else isPlaying (state q) = true
           /\ progress (state q) = percentAt p c
           /\ pauseTimeRef (refs q) = pauseTimeRef (refs p)).
Proof.
  intros (_ & _ & Hl) Hpl Hc q. subst q. unfold step.
  destruct (runEffects_fields p (handler AnimationFrame p))
    as (E1 & E2 & E3 & E4 & E5 & E6).
  rewrite E1, E2, E3, E5, E6. clear E1 E2 E3 E4 E5 E6. cbn [handler].
  destruct (runFrame_cases p Hl) as [(Hf & _) | (_ & ->)]; [congruence |].
  unfold updateProgress, requestAnimationFrame, percentAt.
  destruct p as [sess [ip im ia pr il]
                      [ac so gn am st pt af ipr imr iar]
                      [rq rn apl apf ss re]].
  cbn -[Qle Qlt Qminus Qdiv Qmult Qplus Qinv Qle_bool Qeq_bool durationOr1]
    in *.
  subst ac.
  destruct (Qle_bool _ _);
    cbn -[Qle Qlt Qminus Qdiv Qmult Qplus Qinv Qle_bool Qeq_bool durationOr1];
    repeat split; assumption.
Qed.

Lemma updateProgress_session p : session (updateProgress p) = session p.
Proof.
  unfold updateProgress, requestAnimationFrame.
  destruct (audioContextRef (refs p)); [| reflexivity].
  destruct (Qle_bool _ _); reflexivity.
Qed.

Lemma Qle_bool_true x y : Qle_bool x y = true -> x <= y.
Proof. apply Qle_bool_iff. Qed.

(** X16. A frame while playing: when the elapsed time is less than the
    duration, the progress becomes the elapsed percentage and playback
    goes on; when it has reached the duration, the progress is set to
    100, playback ends, the pause offset is reset to 0, no callback stays
    scheduled and the ambient track is silent.  The next click on play
    then starts a new source at offset 0, with progress 0. *)
Theorem tick_shows_elapsed_or_completes :
  forall p c, reachable p -> isPlaying (state p) = true ->
    audioContextRef (refs p) = Some c ->
    let q := step AnimationFrame p in
    (percentAt p c < 100 ->
       isPlaying (state q) = true
       /\ progress (state q) = percentAt p c
       /\ pauseTimeRef (refs q) = pauseTimeRef (refs p))
    /\ (100 <= percentAt p c ->
        isPlaying (state q) = false
        /\ progress (state q) = 100
        /\ pauseTimeRef (refs q) = 0
        /\ rafQueue (platform q) = []
        /\ ambientAudible q = false
        /\ let r := step ClickPlay q in
           isPlaying (state r) = true
           /\ progress (state r) == 0
           /\ startTimeRef (refs r) = currentTime c - 0
           /\ exists b,
                audioBuffer (session p) = Some b
                /\ sources (refs r)
                   = {| buffer := b; startOffset := 0; stopped := false |}
                     :: sources (refs p)).
Proof.
  intros p c Hp Hpl Hc q.
  pose proof (reachable_Inv p Hp) as HI.
  destruct (tick_effect p c HI Hpl Hc) as (T1 & T2 & T3). fold q in T1, T2, T3.
  assert (Hq : reachable q) by (apply reach_step, Hp).
  split.
  - intros Hlt. destruct (Qle_bool 100 (percentAt p c)) eqn:E; [| exact T3].
    apply Qle_bool_true in E. lra.
  - intros Hge. apply Qle_bool_iff in Hge. rewrite Hge in T3.
    destruct T3 as (Q1 & Q2 & Q3 & Q4).
    split; [exact Q1 |]. split; [exact Q2 |]. split; [exact Q3 |].
    split; [exact Q4 |].
    split.
    { destruct (reachable_Inv q Hq) as (_ & (_ & Heq & _) & _).
      rewrite Heq, Q1. reflexivity. }
    destruct (reachable_audioInv q Hq) as (_ & (g & Hg) & Hb).
    destruct (reachable_Inv p Hp) as (_ & _ & (_ & _ & _ & _ & H5 & _)).
    destruct (H5 Hpl) as (c0 & src & rest & _ & Hso & _).
    destruct Hb as (b & Hb); [rewrite T2, Hso; discriminate |].
    destruct (step_resume q c b g Q1 T1 Hb Hg) as (R1 & R2 & R3 & R4 & R5).
    rewrite Q3 in R1, R2, R3, R4, R5. rewrite T2 in R1.
    assert (Hsess : session q = session p).
    { unfold q, step. rewrite runEffects_session. cbn [handler].
      destruct (runFrame_cases p (proj2 (proj2 HI))) as [(Hf & _) | (_ & ->)];
        [congruence |].
      now rewrite updateProgress_session. }
    assert (Hz : (currentTime c - (currentTime c - 0))
                 / durationOr1 (session q) * 100 == 0).
    { rewrite R5. unfold Qdiv. ring. }
    assert (Hnot : Qle_bool 100
                     ((currentTime c - (currentTime c - 0))
                      / durationOr1 (session q) * 100) = false).
    { apply not_true_is_false. intros E.
      apply Qle_bool_true in E. rewrite Hz in E. lra. }
    rewrite Hnot in R3, R4. cbv zeta.
    split; [exact R4 |]. split; [rewrite R3; exact Hz |].
    split; [exact R2 |].
    exists b. rewrite <- Hsess. split; [exact Hb | exact R1].
Qed.

Lemma tick_shows_elapsed_or_completes_witness :
  let p := run [ClockAdvance 240000] demoPlayer in
  reachable p
  /\ isPlaying (state p) = true
  /\ isPlaying (state (step AnimationFrame p)) = false
  /\ progress (state (step AnimationFrame p)) = 100.
Proof.
  cbv zeta.
  set (p := run [ClockAdvance 240000] demoPlayer).
  set (c := {| currentTime := 0 + (Z.of_N 240000 # contextSampleRate);
               ctxState := running |}).
  assert (H : reachable p) by (apply run_reachable, reach_mount).
  assert (Hpl : isPlaying (state p) = true) by (vm_compute; reflexivity).
  assert (Hc : audioContextRef (refs p) = Some c)
    by (vm_compute; reflexivity).
  assert (Hge : 100 <= percentAt p c)
    by (unfold Qle; vm_compute; discriminate).
  destruct (proj2 (tick_shows_elapsed_or_completes p c H Hpl Hc) Hge)
    as (Q1 & Q2 & _).
  split; [exact H |]. split; [exact Hpl |]. split; [exact Q1 | exact Q2].
Defined.

(** *** Voice commands and buttons *)

Lemma step_noop_by_guard i t p c :
  synced p ->
  recognize (trim (toLowerCase t)) = Some c -> fires c p = false ->
  step (SpeechResult i t) p = p.
Proof.
  intros Hs Hc Hf. unfold step. cbn [handler].
  destruct (instanceExists i p); [| apply runEffects_same].
  rewrite (onresult_dispatch t p Hs). unfold dispatch. rewrite Hc, Hf.
  apply runEffects_same.
Qed.

Lemma setIsAmbientOn_const b p :
  isAmbientOn (state p) = negb b ->
  setIsAmbientOn (fun _ => b) p = toggleAmbient p.
Proof.
  intros H. unfold toggleAmbient, setIsAmbientOn, withState.
  rewrite H, negb_involutive. reflexivity.
Qed.

Lemma perform_is_button c p :
  fires c p = true -> perform c p = handler (button c) p.
Proof.
  intros Hf. destruct c; cbn [fires perform button handler] in *.
  - unfold togglePlay. now rewrite Hf.
  - unfold togglePlay. apply negb_true_iff in Hf. now rewrite Hf.
  - reflexivity.
  - reflexivity.
  - apply negb_true_iff in Hf. now apply (setIsAmbientOn_const true).
  - now apply (setIsAmbientOn_const false).
Qed.

(** X17. A recognized utterance whose command fires does exactly what the
    click on the matching button does: pause and play the play button,
    mute and unmute the mute button, ambient on and off the ambient
    button. *)
Theorem voice_command_is_button_press :
  forall i t p c,
    reachable p -> instanceExists i p = true ->
    recognize (trim (toLowerCase t)) = Some c -> fires c p = true ->
    step (SpeechResult i t) p = step (button c) p.
Proof.
  intros i t p c Hp Hi Hc Hf. unfold step at 1. cbn [handler]. rewrite Hi.
  rewrite (onresult_dispatch t p (reachable_synced p Hp)). unfold dispatch.
  rewrite Hc, Hf. now rewrite perform_is_button.
Qed.

Lemma voice_command_is_button_press_witness :
  reachable demoPlayer
  /\ instanceExists 1 demoPlayer = true
  /\ recognize (trim (toLowerCase "Please PAUSE")) = Some Pause
  /\ fires Pause demoPlayer = true
  /\ step (SpeechResult 1 "Please PAUSE") demoPlayer
     = step ClickPlay demoPlayer.
Proof.
  assert (H : reachable demoPlayer) by apply reach_mount.
  assert (Hi : instanceExists 1 demoPlayer = true)
    by (vm_compute; reflexivity).
  assert (Hc : recognize (trim (toLowerCase "Please PAUSE")) = Some Pause)
    by (vm_compute; reflexivity).
  assert (Hf : fires Pause demoPlayer = true) by (vm_compute; reflexivity).
  split; [exact H |]. split; [exact Hi |]. split; [exact Hc |].
  split; [exact Hf |].
  exact (voice_command_is_button_press 1 "Please PAUSE" demoPlayer Pause
           H Hi Hc Hf).
Defined.

Lemma fires_after_button c p :
  Inv p -> audioInv p -> fires c p = true ->
  (c = Play -> isPlaying (state (step ClickPlay p)) = true) ->
  fires c (step (button c) p) = false.
Proof.
  intros HI HA Hf Hplay.
  destruct HI as (Hs & Ha & Hl).
  destruct c; cbn [fires button] in *.
  - destruct (step_pause p (conj Hs (conj Ha Hl)) Hf) as (H & _). exact H.
  - rewrite (Hplay eq_refl). reflexivity.
  - unfold step. rewrite runEffects_state. cbn [handler]. unfold toggleMute.
    destruct HA as (_ & (g & Hg) & _). rewrite Hg. cbn.
    destruct Hs as (_ & Hm & _). rewrite Hm.
    apply negb_true_iff in Hf. now rewrite Hf.
  - unfold step. rewrite runEffects_state. cbn [handler]. unfold toggleMute.
    destruct HA as (_ & (g & Hg) & _). rewrite Hg. cbn.
    destruct Hs as (_ & Hm & _). now rewrite Hm, Hf.
  - unfold step. rewrite runEffects_state. cbn.
    apply negb_true_iff in Hf. now rewrite Hf.
  - unfold step. rewrite runEffects_state. cbn. now rewrite Hf.
Qed.

(** X18. The same utterance delivered a second time changes nothing: the
    first delivery has put the player in the state the command names.
    For a play command this needs that the player is playing after the
    first delivery, or that the session has no audio (a playback that is
    over at its first tick is not playing). *)
Theorem voice_command_said_twice :
  forall i t p, reachable p ->
    let q := step (SpeechResult i t) p in
    (recognize (trim (toLowerCase t)) = Some Play ->
     isPlaying (state q) = true \/ audioBuffer (session p) = None) ->
    step (SpeechResult i t) q = q.
Proof.
  intros i t p Hp q Hplay.
  assert (Hq : reachable q) by (apply reach_step, Hp).
  pose proof (reachable_synced p Hp) as Hs.
  destruct (instanceExists i p) eqn:Hi.
  2:{ assert (E : q = p).
      { unfold q, step. cbn [handler]. rewrite Hi. apply runEffects_same. }
      rewrite E. unfold step. cbn [handler]. rewrite Hi.
      apply runEffects_same. }
  destruct (recognize (trim (toLowerCase t))) as [c |] eqn:Hc.
  2:{ assert (E : q = p).
      { unfold q, step. cbn [handler]. rewrite Hi.
        rewrite (onresult_dispatch t p Hs). unfold dispatch. rewrite Hc.
        apply runEffects_same. }
      rewrite E. unfold step. cbn [handler]. rewrite Hi.
      rewrite (onresult_dispatch t p Hs). unfold dispatch. rewrite Hc.
      apply runEffects_same. }
  destruct (fires c p) eqn:Hf.
  2:{ assert (E : q = p) by (apply (step_noop_by_guard i t p c); assumption).
      rewrite E. exact E. }
  assert (Eq : q = step (button c) p).
  { unfold q, step at 1. cbn [handler]. rewrite Hi.
    rewrite (onresult_dispatch t p Hs). unfold dispatch.
    rewrite Hc, Hf. now rewrite perform_is_button. }
  assert (Hnone : c = Play -> audioBuffer (session p) = None ->
                  step (SpeechResult i t) q = q).
  { intros -> Hb. assert (E : q = p).
    { rewrite Eq. unfold step. cbn [button handler]. unfold togglePlay.
      cbn [fires] in Hf. apply negb_true_iff in Hf. rewrite Hf.
      unfold playAudio. rewrite Hb.
      destruct (audioContextRef (refs p)); apply runEffects_same. }
    rewrite E. fold q. exact E. }
  destruct c;
    try (apply (step_noop_by_guard i t q _ (reachable_synced q Hq) Hc);
         rewrite Eq;
         apply fires_after_button;
         [apply reachable_Inv, Hp | apply reachable_audioInv, Hp
         | exact Hf | discriminate]).
  destruct (Hplay eq_refl) as [Hpl | Hb]; [| now apply Hnone].
  apply (step_noop_by_guard i t q Play (reachable_synced q Hq) Hc).
  cbn [fires]. now rewrite Hpl.
Qed.

Lemma voice_command_said_twice_witness :
  reachable demoPlayer
  /\ step (SpeechResult 1 "mute") (step (SpeechResult 1 "mute") demoPlayer)
     = step (SpeechResult 1 "mute") demoPlayer.
Proof.
  assert (H : reachable demoPlayer) by apply reach_mount.
  split; [exact H |].
  apply (voice_command_said_twice 1 "mute" demoPlayer H).
  intros Hc. vm_compute in Hc. discriminate Hc.
Defined.

(** *** Leaving the player *)



(** *** The ambient element *)

Lemma setPaused_same b a :
  loop (setPaused b a) = loop a /\ volume (setPaused b a) = volume a.
Proof. split; reflexivity. Qed.

(** X20. In every state of the mounted player the ambient element
    exists, loops, and has volume 0.15: only its paused flag changes. *)
Theorem ambient_element_is_fixed :
  forall p, reachable p ->
    exists a, ambientAudioRef (refs p) = Some a
              /\ loop a = true /\ volume a = 15 # 100.
Proof.
  induction 1 as [s ctx0 playable supported | ev p Hp IH].
  - destruct (mount_Inv s ctx0 playable supported) as (_ & ((a & Ha) & _) & _).
    exists a. split; [exact Ha |].
    revert Ha. destruct s as [i t d ip sc iu [[l r] |]];
      destruct ctx0, playable, supported; vm_compute;
      intros Ha; injection Ha as <-; split; reflexivity.
  - destruct IH as (a & Ha & Hl & Hv).
    pose proof (handler_shadow ev p) as Hsh. unfold shadow in Hsh.
    inversion Hsh as [[E1 E2 E3 E4 E5]].
    pose proof (runEffects_ambient p (handler ev p)) as RA.
    rewrite E4, Ha in RA. fold (step ev p) in RA.
    apply (f_equal fst) in RA. cbn [fst] in RA.
    repeat match type of RA with
           | context [if ?b then _ else _] => destruct b
           end; cbn [fst] in RA; rewrite RA; eexists; (split; [reflexivity |]);
      cbn; auto.
Qed.

Lemma ambient_element_is_fixed_witness :
  reachable (step ClickAmbient demoPlayer)
  /\ exists a, ambientAudioRef (refs (step ClickAmbient demoPlayer)) = Some a
               /\ loop a = true /\ volume a = 15 # 100.
Proof.
  assert (H : reachable (step ClickAmbient demoPlayer))
    by apply reach_step, reach_mount.
  split; [exact H |]. exact (ambient_element_is_fixed _ H).
Defined.

(** *** Speech recognition instances *)

Lemma updateProgress_speechView p :
  speechView (updateProgress p) = speechView p.
Proof.
  unfold updateProgress, requestAnimationFrame.
  destruct (audioContextRef (refs p)); [| reflexivity].
  destruct (Qle_bool _ _); reflexivity.
Qed.

Lemma playAudio_speechView p : speechView (playAudio p) = speechView p.
Proof.
  unfold playAudio.
  destruct (audioContextRef (refs p)); [| reflexivity].
  destruct (audioBuffer (session p)); [| reflexivity].
  destruct (gainNodeRef (refs p)); [| reflexivity].
  now rewrite updateProgress_speechView.
Qed.

Lemma pauseAudio_speechView p : speechView (pauseAudio p) = speechView p.
Proof.
  unfold pauseAudio, cancelAnimationFrame.
  destruct (sources (refs p)); [reflexivity |].
  destruct (audioContextRef (refs p)); [| reflexivity].
  cbn. destruct (_ =? _)%nat; reflexivity.
Qed.

Lemma toggleMute_speechView p : speechView (toggleMute p) = speechView p.
Proof. unfold toggleMute. destruct (gainNodeRef (refs p)); reflexivity. Qed.

Lemma onresult_speechView t p : speechView (onresult t p) = speechView p.
Proof.
  unfold onresult.
  repeat match goal with
         | |- context [if ?b then _ else _] => destruct b
         end;
    auto using playAudio_speechView, pauseAudio_speechView,
      toggleMute_speechView.
Qed.

Lemma onerror_speechView a e p : speechView (onerror a e p) = speechView p.
Proof.
  unfold onerror.
  repeat match goal with
         | |- context [if ?b then _ else _] => destruct b
         end; reflexivity.
Qed.

Lemma fold_updateProgress_speechView (l : list nat) :
  forall q,
    speechView (fold_left (fun q _ => updateProgress q) l q) = speechView q.
Proof.
  induction l as [| h l IH]; intros q; cbn [fold_left]; [reflexivity |].
  now rewrite IH, updateProgress_speechView.
Qed.

Lemma handler_speechView ev p : speechView (handler ev p) = speechView p.
Proof.
  destruct ev as [| | | | i t | i e | | n | b]; cbn [handler].
  - unfold togglePlay. destruct (isPlaying (state p));
      auto using playAudio_speechView, pauseAudio_speechView.
  - apply toggleMute_speechView.
  - reflexivity.
  - reflexivity.
  - destruct (instanceExists i p); auto using onresult_speechView.
  - destruct (instanceExists i p); auto using onerror_speechView.
  - unfold runFrame. now rewrite fold_updateProgress_speechView.
  - unfold advance. destruct (audioContextRef (refs p)); reflexivity.
  - reflexivity.
Qed.

(** The speech effect is the only writer of the instance count: a step
    adds an instance exactly when the listening flag changed and the
    browser has a recognizer. *)
Lemma runEffects_speechView prev next :
  speechView (runEffects prev next)
  = (speechSupported (platform next),
     if changed isListening prev next && speechSupported (platform next)
     then S (recEpoch (platform next)) else recEpoch (platform next)).
Proof.
  destruct next as [s2 [ip2 im2 ia2 pr2 il2]
                       [ac2 so2 gn2 am2 st2 pt2 af2 ipr2 imr2 iar2]
                       [rq2 rn2 apl2 apf2 ss2 re2]].
  unfold runEffects, syncAmbient, ambientPlay, ambientPause, speechEffect,
    speechView.
  destruct (changed isPlaying prev _), (changed isMuted prev _),
    (changed isAmbientOn prev _), (changed isListening prev _);
    destruct ss2, am2 as [a |], apl2, ip2, ia2; reflexivity.
Qed.

Lemma step_speechView ev p :
  speechView (step ev p)
  = (speechSupported (platform p),
     if changed isListening p (handler ev p) && speechSupported (platform p)
     then S (recEpoch (platform p)) else recEpoch (platform p)).
Proof.
  unfold step. rewrite runEffects_speechView.
  pose proof (handler_speechView ev p) as Hh. unfold speechView in Hh.
  inversion Hh as [[E1 E2]]. now rewrite E1, E2.
Qed.

(** X21. In a browser without speech recognition no recognition instance
    is ever created, so a result or an error addressed to any instance
    changes nothing; the voice button still flips the listening flag. *)
Theorem no_recognizer_no_voice :
  forall s ctx0 playable evs,
    let p := run evs (mount s ctx0 playable false) in
    speechSupported (platform p) = false
    /\ recEpoch (platform p) = 0%nat
    /\ (forall i t, step (SpeechResult i t) p = p)
    /\ (forall i e, step (SpeechError i e) p = p)
    /\ isListening (state (step ClickVoice p))
       = negb (isListening (state p)).
Proof.
  intros s ctx0 playable evs p.
  assert (Hv : speechView p = (false, 0%nat)).
  { subst p. induction evs as [| ev evs IH] using rev_ind.
    - destruct s as [i t d ip sc iu [[l r] |]];
        destruct ctx0, playable; vm_compute; reflexivity.
    - unfold run in *. rewrite fold_left_app. cbn [fold_left].
      rewrite step_speechView.
      pose proof (f_equal fst IH) as E1. pose proof (f_equal snd IH) as E2.
      cbn in E1, E2. rewrite E1, E2, andb_false_r. reflexivity. }
  pose proof (f_equal fst Hv) as E1. pose proof (f_equal snd Hv) as E2.
  cbn in E1, E2.
  assert (Hno : forall i, instanceExists i p = false).
  { intros i. unfold instanceExists. rewrite E2.
    destruct i; [reflexivity | apply andb_false_r]. }
  split; [exact E1 |]. split; [exact E2 |].
  split; [| split].
  - intros i t. unfold step. cbn [handler]. rewrite Hno.
    apply runEffects_same.
  - intros i e. unfold step. cbn [handler]. rewrite Hno.
    apply runEffects_same.
  - unfold step. rewrite runEffects_state. reflexivity.
Qed.


(** X22. In a browser with speech recognition there is always a current
    recognition instance.  A click on the voice button flips the
    listening flag and replaces the instance: every instance that existed
    still exists but is no longer the active one, the new one is, and
    the playback state is untouched. *)
Theorem listening_toggle_replaces_recognizer :
  forall p, reachable p -> speechSupported (platform p) = true ->
    (1 <= recEpoch (platform p))%nat
    /\ isEffectActive (recEpoch (platform p)) p = true
    /\ let q := step ClickVoice p in
       isListening (state q) = negb (isListening (state p))
       /\ recEpoch (platform q) = S (recEpoch (platform p))
       /\ (forall i, instanceExists i p = true ->
              instanceExists i q = true /\ isEffectActive i q = false)
       /\ instanceExists (S (recEpoch (platform p))) q = true
       /\ isEffectActive (S (recEpoch (platform p))) q = true
       /\ playback q = playback p.
Proof.
  intros p Hp Hsup.
  assert (H1 : (1 <= recEpoch (platform p))%nat).
  { revert Hsup. induction Hp as [s ctx0 playable supported | ev p Hp IH].
    - destruct s as [i t d ip sc iu [[l r] |]];
        destruct ctx0, playable, supported; vm_compute;
        solve [discriminate | lia].
    - pose proof (step_speechView ev p) as Hv.
      pose proof (f_equal fst Hv) as E1. pose proof (f_equal snd Hv) as E2.
      cbn in E1, E2. rewrite E1, E2. intros Hs. specialize (IH Hs).
      destruct (_ && _); lia. }
  split; [exact H1 |].
  split; [unfold isEffectActive; apply Nat.eqb_refl |].
  intros q.
  pose proof (step_speechView ClickVoice p) as Hv. fold q in Hv.
  pose proof (f_equal snd Hv) as E2. cbn [snd speechView] in E2.
  assert (Hst : state q = state (setIsListening (negb (isListening (state p))) p)).
  { unfold q, step. now rewrite runEffects_state. }
  assert (Hch : changed isListening p (handler ClickVoice p) = true).
  { unfold changed. cbn. now destruct (isListening (state p)). }
  rewrite Hch, Hsup in E2. cbn in E2.
  split; [rewrite Hst; reflexivity |].
  split; [exact E2 |].
  split.
  { intros i Hi. unfold instanceExists, isEffectActive in *. rewrite E2.
    apply andb_true_iff in Hi as [Ha Hb].
    apply Nat.leb_le in Ha, Hb. split.
    - apply andb_true_iff. split; apply Nat.leb_le; lia.
    - apply Nat.eqb_neq. lia. }
  split.
  { unfold instanceExists. rewrite E2. apply andb_true_iff.
    split; apply Nat.leb_le; lia. }
  split; [unfold isEffectActive; rewrite E2; apply Nat.eqb_refl |].
  unfold playback; rewrite Hst; reflexivity.
Qed.

Lemma listening_toggle_replaces_recognizer_witness :
  reachable demoPlayer
  /\ speechSupported (platform demoPlayer) = true
  /\ recEpoch (platform (step ClickVoice demoPlayer))
     = S (recEpoch (platform demoPlayer)).
Proof.
  assert (H : reachable demoPlayer) by apply reach_mount.
  assert (Hs : speechSupported (platform demoPlayer) = true)
    by (vm_compute; reflexivity).
  split; [exact H |]. split; [exact Hs |].
  exact (proj1 (proj2 (proj2 (proj2
           (listening_toggle_replaces_recognizer _ H Hs))))).
Defined.

End PlayerFacts.

(* ------------------------------------------------------------------ *)
(** ** Media player: transcripts and shadow refs *)

Section TranscriptFacts.

Import Types JsString MediaPlayer VoiceSpec.
Local Open Scope string_scope.

Lemma toLowerCase_app s t :
  toLowerCase (s ++ t) = toLowerCase s ++ toLowerCase t.
Proof. induction s as [| c s IH]; cbn; [reflexivity | now rewrite IH]. Qed.

Lemma lowerChar_whiteSpace c : isWhiteSpace (lowerChar c) = isWhiteSpace c.
Proof.
  destruct c as [[] [] [] [] [] [] [] []]; vm_compute; reflexivity.
Qed.

Lemma lowerChar_idempotent c : lowerChar (lowerChar c) = lowerChar c.
Proof.
  destruct c as [[] [] [] [] [] [] [] []]; vm_compute; reflexivity.
Qed.

Lemma toLowerCase_idempotent s : toLowerCase (toLowerCase s) = toLowerCase s.
Proof.
  induction s as [| c s IH]; cbn; [reflexivity |].
  now rewrite lowerChar_idempotent, IH.
Qed.

Lemma isBlank_toLowerCase s : isBlank (toLowerCase s) = isBlank s.
Proof.
  induction s as [| c s IH]; cbn; [reflexivity |].
  now rewrite lowerChar_whiteSpace, IH.
Qed.

Lemma trimStart_app_blank pre s :
  isBlank pre = true -> trimStart (pre ++ s) = trimStart s.
Proof.
  induction pre as [| c pre IH]; cbn; [reflexivity |].
  intros H. apply andb_true_iff in H as [-> H]. now apply IH.
Qed.

Lemma trimStart_app_nonblank t post :
  isBlank t = false -> trimStart (t ++ post) = trimStart t ++ post.
Proof.
  induction t as [| c t IH]; cbn; [discriminate |].
  destruct (isWhiteSpace c); cbn; [exact IH | reflexivity].
Qed.

Lemma trimEnd_blank s : isBlank s = true -> trimEnd s = EmptyString.
Proof.
  induction s as [| c s IH]; cbn; [reflexivity |].
  intros H. apply andb_true_iff in H as [-> H]. now rewrite IH.
Qed.

Lemma trimEnd_app_blank s post :
  isBlank post = true -> trimEnd (s ++ post) = trimEnd s.
Proof.
  intros H. induction s as [| c s IH]; cbn.
  - now apply trimEnd_blank.
  - now rewrite IH.
Qed.

Lemma isBlank_app s t : isBlank (s ++ t) = isBlank s && isBlank t.
Proof.
  induction s as [| c s IH]; cbn; [reflexivity |].
  now rewrite IH, andb_assoc.
Qed.

Lemma trim_padding pre t post :
  isBlank pre = true -> isBlank post = true ->
  trim (pre ++ t ++ post) = trim t.
Proof.
  intros Hpre Hpost. unfold trim. rewrite trimStart_app_blank by exact Hpre.
  destruct (isBlank t) eqn:Ht.
  - rewrite (trimStart_blank (t ++ post)), (trimStart_blank t); auto.
    now rewrite isBlank_app, Ht, Hpost.
  - rewrite trimStart_app_nonblank by exact Ht.
    now apply trimEnd_app_blank.
Qed.

(** X23. White space around the transcript and the case of its letters
    do not matter to the voice dispatcher: the padded transcript and the
    lower-cased transcript are handled exactly as the transcript itself. *)
Theorem dispatch_ignores_case_and_padding :
  forall pre t post p,
    isBlank pre = true -> isBlank post = true ->
    onresult (pre ++ t ++ post) p = onresult t p
    /\ onresult (toLowerCase t) p = onresult t p
    /\ recognize (trim (toLowerCase (pre ++ t ++ post)))
       = recognize (trim (toLowerCase t)).
Proof.
  intros pre t post p Hpre Hpost.
  assert (E : trim (toLowerCase (pre ++ t ++ post)) = trim (toLowerCase t)).
  { rewrite !toLowerCase_app. apply trim_padding;
      now rewrite isBlank_toLowerCase. }
  unfold onresult. rewrite E, toLowerCase_idempotent. repeat split.
Qed.

Lemma dispatch_ignores_case_and_padding_witness :
  isBlank "  " = true
  /\ isBlank " " = true
  /\ onresult ("  " ++ "PAUSE now" ++ " ") demoPlayer
     = onresult "PAUSE now" demoPlayer.
Proof.
  assert (H1 : isBlank "  " = true) by reflexivity.
  assert (H2 : isBlank " " = true) by reflexivity.
  split; [exact H1 |]. split; [exact H2 |].
  exact (proj1 (dispatch_ignores_case_and_padding "  " "PAUSE now" " "
                  demoPlayer H1 H2)).
Defined.

(** X24. In every state of the mounted player the three shadow refs hold
    the values of [isPlaying], [isMuted] and [isAmbientOn], also after
    one more event; a handler itself never writes them, so until the
    effects have run they hold the values of before the handler. *)
Theorem shadow_refs_follow_state :
  forall p ev, reachable p ->
    isPlayingRef (refs p) = isPlaying (state p)
    /\ isMutedRef (refs p) = isMuted (state p)
    /\ isAmbientOnRef (refs p) = isAmbientOn (state p)
    /\ isPlayingRef (refs (step ev p)) = isPlaying (state (step ev p))
    /\ isPlayingRef (refs (handler ev p)) = isPlaying (state p)
    /\ isMutedRef (refs (handler ev p)) = isMuted (state p)
    /\ isAmbientOnRef (refs (handler ev p)) = isAmbientOn (state p).
Proof.
  intros p ev Hp.
  destruct (reachable_synced p Hp) as (S1 & S2 & S3).
  destruct (reachable_synced _ (reach_step ev p Hp)) as (T1 & _).
  pose proof (handler_shadow ev p) as Hsh. unfold shadow in Hsh.
  inversion Hsh as [[E1 E2 E3 E4 E5]].
  rewrite E1, E2, E3. auto 8.
Qed.

Lemma shadow_refs_follow_state_witness :
  reachable demoPlayer
  /\ isPlayingRef (refs demoPlayer) = isPlaying (state demoPlayer).
Proof.
  assert (H : reachable demoPlayer) by apply reach_mount.
  split; [exact H |].
  exact (proj1 (shadow_refs_follow_state demoPlayer ClickPlay H)).
Defined.

End TranscriptFacts.
